(** * tslox: the static Resolver pass and the LoxClass object model

    A shallow embedding of [Resolver] (scope stack, declare/define,
    resolveLocal and the statement and expression visitors) and of
    [LoxClass] (findMethod, call, arity), with the properties the
    specification states about them.

    The Resolver is a visitor whose methods return [void] and act on
    - its own fields [scopes], [currentFunction], [currentClass];
    - the diagnostics sink ([errorReporter.report]);
    - the interpreter's depth table ([interpreter.resolve]).
    Every method is embedded as a function [Resolver -> Resolver] on a
    record that holds the three fields and, for the two collaborators, the
    sequence of calls made to them so far, oldest first. *)

From stdpp Require Import gmap strings list fin_maps.

Local Open Scope string_scope.
Local Open Scope list_scope.
Set Warnings "-register-all".

(** ** Scope objects

    [type Scope = Record<string, boolean>]; every scope is created by the
    object literal [{}] in [beginScope], so its prototype is
    [Object.prototype].  A scope is represented by the finite map of its own
    properties; the three operations the Resolver applies to a scope are
    written out with what the prototype contributes to them. *)

Abbreviation Scope := (gmap string bool).

(** The property names of [Object.prototype]. *)
Definition object_prototype_names : list string :=
  [ "constructor"; "__defineGetter__"; "__defineSetter__"; "hasOwnProperty";
    "__lookupGetter__"; "__lookupSetter__"; "isPrototypeOf";
    "propertyIsEnumerable"; "toString"; "valueOf"; "__proto__";
    "toLocaleString" ].

Definition inherited (k : string) : bool :=
  bool_decide (k ∈ object_prototype_names).

(** [k in scope]: an own property or one found on the prototype. *)
Definition has_property (k : string) (scope : Scope) : bool :=
  bool_decide (is_Some (scope !! k)) || inherited k.

(** [scope[k] = v].  The inherited data properties are writable, so the
    assignment creates an own property; [__proto__] is an accessor whose
    setter ignores a boolean. *)
Definition set_property (k : string) (v : bool) (scope : Scope) : Scope :=
  if String.eqb k "__proto__" then scope else <[k := v]> scope.

(** [scope[k] === false].  An inherited value is a function or an object,
    never [false]. *)
Definition is_false (k : string) (scope : Scope) : bool :=
  bool_decide (scope !! k = Some false).

(** ** Tokens and the syntax tree

    Only the fields the Resolver reads are kept. *)

Record Token := mkToken { lexeme : string; line : nat }.

Inductive Expr :=
| AssignExpr (name : Token) (value : Expr)
| BinaryExpr (left right : Expr)
| CallExpr (callee : Expr) (args : list Expr)
| GetExpr (object : Expr)
| GroupingExpr (expression : Expr)
| LiteralExpr
| LogicalExpr (left right : Expr)
| SetExpr (object value : Expr)
| SuperExpr (keyword : Token)
| ThisExpr (keyword : Token)
| UnaryExpr (right : Expr)
| VariableExpr (name : Token).

(** [ClassStmt.superclass] is a [VariableExpr] or [null]; it is kept as the
    name token of that variable expression. *)
Inductive Stmt :=
| BlockStmt (statements : list Stmt)
| ClassStmt (name : Token) (superclass : option Token) (methods : list FunctionStmt)
| ExpressionStmt (expression : Expr)
| FunctionDecl (func : FunctionStmt)
| IfStmt (condition : Expr) (thenBranch : Stmt) (elseBranch : option Stmt)
| PrintStmt (expression : Expr)
| ReturnStmt (keyword : Token) (value : option Expr)
| VarStmt (name : Token) (initializer : option Expr)
| WhileStmt (condition : Expr) (body : Stmt)
with FunctionStmt :=
| Function (name : Token) (params : list Token) (body : list Stmt).

Definition function_name (f : FunctionStmt) : Token :=
  match f with Function name _ _ => name end.

(** ** Resolver state *)

Module FunctionType.
Inductive t := None | Function | Initializer | Method.
End FunctionType.

Module ClassType.
Inductive t := None | Class | SubClass.
End ClassType.

Record ResolvingError := mkResolvingError { message : string; error_line : nat }.

Record Resolver := mkResolver {
  scopes : list Scope;                      (* index 0 is the outermost scope *)
  currentFunction : FunctionType.t;
  currentClass : ClassType.t;
  reported : list ResolvingError;           (* errorReporter.report calls *)
  locals : list (Expr * nat)                (* interpreter.resolve calls *)
}.

(** [new Resolver(interpreter)] with nothing reported or resolved yet. *)
Definition initial : Resolver :=
  mkResolver [] FunctionType.None ClassType.None [] [].

Definition set_scopes (s : list Scope) (r : Resolver) : Resolver :=
  mkResolver s (currentFunction r) (currentClass r) (reported r) (locals r).

Definition set_currentFunction (f : FunctionType.t) (r : Resolver) : Resolver :=
  mkResolver (scopes r) f (currentClass r) (reported r) (locals r).

Definition set_currentClass (c : ClassType.t) (r : Resolver) : Resolver :=
  mkResolver (scopes r) (currentFunction r) c (reported r) (locals r).

(** [errorReporter.report(new ResolvingError(msg, line))] *)
Definition report (msg : string) (ln : nat) (r : Resolver) : Resolver :=
  mkResolver (scopes r) (currentFunction r) (currentClass r)
             (reported r ++ [mkResolvingError msg ln]) (locals r).

(** [this.interpreter.resolve(expr, depth)] *)
Definition interpreter_resolve (expr : Expr) (depth : nat) (r : Resolver) : Resolver :=
  mkResolver (scopes r) (currentFunction r) (currentClass r)
             (reported r) (locals r ++ [(expr, depth)]).

(** Sequencing of two visitor steps, in source order. *)
Definition and_then (a b : Resolver -> Resolver) : Resolver -> Resolver :=
  fun r => b (a r).
Infix ">>>" := and_then (at level 61, left associativity).

Definition skip : Resolver -> Resolver := fun r => r.

(** [for (const x of xs) f(x)] *)
Definition for_each {A} (f : A -> Resolver -> Resolver) : list A -> Resolver -> Resolver :=
  fix go xs r := match xs with [] => r | x :: xs' => go xs' (f x r) end.

(** *** The Stack class *)

Definition isEmpty (s : list Scope) : bool := bool_decide (length s < 1).

(** [this[this.length - 1]], [undefined] on an empty stack. *)
Definition peek (s : list Scope) : option Scope := last s.

(** [this.scopes.peek()[k] = v]; every call site runs with a non-empty
    stack (behind the [isEmpty] guard or right after [beginScope]). *)
Definition assign_peek (k : string) (v : bool) (r : Resolver) : Resolver :=
  set_scopes (alter (set_property k v) (length (scopes r) - 1) (scopes r)) r.

Definition beginScope (r : Resolver) : Resolver :=
  set_scopes (scopes r ++ [∅]) r.

(** [Array.prototype.pop] leaves an empty array empty. *)
Definition endScope (r : Resolver) : Resolver :=
  set_scopes (removelast (scopes r)) r.

(** *** declare, define, resolveLocal *)

Definition declare (name : Token) (r : Resolver) : Resolver :=
  if isEmpty (scopes r) then r
  else
    match peek (scopes r) with
    | Some scope =>
        ((if has_property (lexeme name) scope
          then report "Already variable with this name in scope" (line name)
          else skip)
         >>> assign_peek (lexeme name) false) r
    | None => r
    end.

Definition define (name : Token) (r : Resolver) : Resolver :=
  if isEmpty (scopes r) then r
  else assign_peek (lexeme name) true r.

(** The loop [for (let i = k - 1; i >= 0; i--)] with [k] iterations left. *)
Fixpoint resolveLocal_loop (k : nat) (expr : Expr) (name : Token) (r : Resolver) : Resolver :=
  match k with
  | 0 => r
  | S i =>
      match scopes r !! i with
      | Some scope =>
          if has_property (lexeme name) scope
          then interpreter_resolve expr (length (scopes r) - 1 - i) r
          else resolveLocal_loop i expr name r
      | None => resolveLocal_loop i expr name r
      end
  end.

Definition resolveLocal (expr : Expr) (name : Token) (r : Resolver) : Resolver :=
  resolveLocal_loop (length (scopes r)) expr name r.

(** *** Expression visitors

    [resolve(expr)] is [expr.accept(this)]: one case per [visit...Expr]. *)

Definition visitVariableExpr (name : Token) : Resolver -> Resolver :=
  (fun r =>
     if negb (isEmpty (scopes r)) &&
        from_option (is_false (lexeme name)) false (peek (scopes r))
     then report "Can't read local variable in its own initializer" (line name) r
     else r)
  >>> resolveLocal (VariableExpr name) name.

Definition visitSuperExpr (keyword : Token) : Resolver -> Resolver :=
  (fun r =>
     match currentClass r with
     | ClassType.None => report "Can't use 'super' outside of class" (line keyword) r
     | ClassType.SubClass => r
     | _ => report "Can't use 'super' in a class with no superclass" (line keyword) r
     end)
  >>> resolveLocal (SuperExpr keyword) keyword.

Definition visitThisExpr (keyword : Token) : Resolver -> Resolver :=
  fun r =>
    match currentClass r with
    | ClassType.None => report "Can't use 'this' outside of a class" (line keyword) r
    | _ => resolveLocal (ThisExpr keyword) keyword r
    end.

Fixpoint resolveExpr (e : Expr) : Resolver -> Resolver :=
  match e with
  | AssignExpr name value => resolveExpr value >>> resolveLocal e name
  | BinaryExpr left_ right_ => resolveExpr left_ >>> resolveExpr right_
  | CallExpr callee args => resolveExpr callee >>> for_each resolveExpr args
  | GetExpr object => resolveExpr object
  | GroupingExpr expression => resolveExpr expression
  | LiteralExpr => skip
  | LogicalExpr left_ right_ => resolveExpr right_ >>> resolveExpr left_
  | SetExpr object value => resolveExpr value >>> resolveExpr object
  | SuperExpr keyword => visitSuperExpr keyword
  | ThisExpr keyword => visitThisExpr keyword
  | UnaryExpr right_ => resolveExpr right_
  | VariableExpr name => visitVariableExpr name
  end.

(** *** Statement visitors *)

Definition visitReturnStmt (keyword : Token) (value : option Expr) : Resolver -> Resolver :=
  (fun r =>
     match currentFunction r with
     | FunctionType.None => report "Can't return from top-level code" (line keyword) r
     | _ => r
     end)
  >>>
  match value with
  | Some v =>
      (fun r =>
         match currentFunction r with
         | FunctionType.Initializer =>
             report "Can't return a value from an initializer" (line keyword) r
         | _ => r
         end)
      >>> resolveExpr v
  | None => skip
  end.

Definition visitVarStmt (name : Token) (initializer : option Expr) : Resolver -> Resolver :=
  declare name
  >>> match initializer with Some i => resolveExpr i | None => skip end
  >>> define name.

Definition method_type (method : FunctionStmt) : FunctionType.t :=
  if String.eqb (lexeme (function_name method)) "init"
  then FunctionType.Initializer
  else FunctionType.Method.

Fixpoint resolveStmt (s : Stmt) : Resolver -> Resolver :=
  match s with
  | BlockStmt statements =>
      beginScope >>> for_each resolveStmt statements >>> endScope
  | ClassStmt name superclass methods =>
      fun r =>
        let enclosingClass := currentClass r in
        (set_currentClass ClassType.Class
         >>> declare name
         >>> define name
         >>> match superclass with
             | Some super =>
                 if String.eqb (lexeme name) (lexeme super)
                 then report "A class can't inherit from itself." (line super)
                 else set_currentClass ClassType.SubClass
                      >>> visitVariableExpr super
                      >>> beginScope
                      >>> assign_peek "super" true
             | None => skip
             end
         >>> beginScope
         >>> assign_peek "this" true
         >>> for_each (fun method => resolveFunction method (method_type method)) methods
         >>> endScope
         >>> match superclass with Some _ => endScope | None => skip end
         >>> set_currentClass enclosingClass) r
  | ExpressionStmt expression => resolveExpr expression
  | FunctionDecl func =>
      declare (function_name func)
      >>> define (function_name func)
      >>> resolveFunction func FunctionType.Function
  | IfStmt condition thenBranch elseBranch =>
      resolveExpr condition
      >>> resolveStmt thenBranch
      >>> match elseBranch with Some s' => resolveStmt s' | None => skip end
  | PrintStmt expression => resolveExpr expression
  | ReturnStmt keyword value => visitReturnStmt keyword value
  | VarStmt name initializer => visitVarStmt name initializer
  | WhileStmt condition body => resolveExpr condition >>> resolveStmt body
  end
with resolveFunction (func : FunctionStmt) (type : FunctionType.t) : Resolver -> Resolver :=
  match func with
  | Function _ params body =>
      fun r =>
        let enclosingFunction := currentFunction r in
        (set_currentFunction type
         >>> beginScope
         >>> for_each (fun param => declare param >>> define param) params
         >>> for_each resolveStmt body
         >>> endScope
         >>> set_currentFunction enclosingFunction) r
  end.

(** [resolve(statements)] on a program. *)
Definition resolve (statements : list Stmt) : Resolver -> Resolver :=
  for_each resolveStmt statements.

(** ** LoxClass

    [LoxFunction], [LoxObject], [LoxInstance] and the [Interpreter] live in
    files that are not part of this development; [LoxClass] uses them only
    through [bind], [call], [arity] and [new LoxInstance(this)], which are
    taken as parameters:
    - [World] is everything a call may read or change (the interpreter, its
      environments, the fields of the instances);
    - a call either returns a value or throws. *)

Inductive Completion (A E : Type) :=
| Returned (value : A)
| Thrown (error : E).
Arguments Returned {A E} value.
Arguments Thrown {A E} error.

Section LoxClassDefinitions.
Context {LoxFunction LoxObject LoxInstance World RuntimeError : Type}.

(** [methods] is the [Record<string, LoxFunction>] handed to the
    constructor: an ordinary object, like a scope, whose prototype is taken
    to be [Object.prototype] (the Interpreter, which builds the table, is not
    part of this development).  It is represented by the finite map of its
    own properties; [name in this.methods] also finds the names of
    [Object.prototype], and [this.methods[name]] then yields the value the
    prototype holds under that name, which [findMethod] hands on as if it
    were a [LoxFunction]. *)
Inductive LoxClass := mkLoxClass {
  class_name : string;
  superclass : option LoxClass;
  methods : gmap string LoxFunction
}.

(** The value of [Object.prototype] under one of its property names (a native
    function, or the prototype object itself for [__proto__]), as a value of
    the type the method table is declared to hold. *)
Variable prototype_property : string -> LoxFunction.

(** [LoxFunction.arity()] *)
Variable function_arity : LoxFunction -> nat.
(** [LoxFunction.bind(instance)] *)
Variable bind : LoxFunction -> LoxInstance -> LoxFunction.
(** [LoxFunction.call(interpreter, args)] *)
Variable function_call :
  LoxFunction -> list LoxObject -> World -> Completion LoxObject RuntimeError * World.
(** [new LoxInstance(klass)] *)
Variable new_LoxInstance : LoxClass -> World -> LoxInstance * World.

Fixpoint findMethod (name : string) (c : LoxClass) : option LoxFunction :=
  match c with
  | mkLoxClass _ super own =>
      match own !! name with
      | Some method => Some method
      | None =>
          if inherited name then Some (prototype_property name)
          else
            match super with
            | Some s => findMethod name s
            | None => None
            end
      end
  end.

Definition call (c : LoxClass) (args : list LoxObject) (w : World)
  : Completion LoxInstance RuntimeError * World :=
  let '(instance, w1) := new_LoxInstance c w in
  match findMethod "init" c with
  | Some initializer =>
      match function_call (bind initializer instance) args w1 with
      | (Returned _, w2) => (Returned instance, w2)
      | (Thrown e, w2) => (Thrown e, w2)
      end
  | None => (Returned instance, w1)
  end.

Definition arity (c : LoxClass) : nat :=
  match findMethod "init" c with
  | None => 0
  | Some initializer => function_arity initializer
  end.

(** The class followed by its superclasses, nearest first. *)
Fixpoint superclass_chain (c : LoxClass) : list LoxClass :=
  c :: match c with
       | mkLoxClass _ (Some s) _ => superclass_chain s
       | mkLoxClass _ None _ => []
       end.
End LoxClassDefinitions.

Arguments LoxClass : clear implicits.

(** ** What resolving one expression emits

    The diagnostics and the depth-table entries that resolving [e] produces
    in the context of [r] (its scopes and class kind), in the order they are
    produced: the logs of a run of [resolveExpr e] started with empty logs. *)

Definition fresh_logs (r : Resolver) : Resolver :=
  mkResolver (scopes r) (currentFunction r) (currentClass r) [] [].

Definition diagnostics_of (e : Expr) (r : Resolver) : list ResolvingError :=
  reported (resolveExpr e (fresh_logs r)).

Definition depths_of (e : Expr) (r : Resolver) : list (Expr * nat) :=
  locals (resolveExpr e (fresh_logs r)).

(** A step that leaves the scopes and the two kinds alone and only appends
    to the two logs, the appended entries not depending on the logs. *)
Definition appends_logs (step : Resolver -> Resolver) : Prop :=
  forall s cf cc rep loc,
    step (mkResolver s cf cc rep loc)
    = mkResolver s cf cc
        (rep ++ reported (step (mkResolver s cf cc [] [])))
        (loc ++ locals (step (mkResolver s cf cc [] []))).

(** ** Statements without a self-inheriting class

    [true] when no class declaration in the statement, at any depth, names
    itself as its superclass. *)

Fixpoint self_inheritance_free (s : Stmt) : bool :=
  match s with
  | BlockStmt statements => forallb self_inheritance_free statements
  | ClassStmt name superclass methods =>
      match superclass with
      | Some super => negb (String.eqb (lexeme name) (lexeme super))
      | None => true
      end
      && forallb function_self_inheritance_free methods
  | FunctionDecl func => function_self_inheritance_free func
  | IfStmt _ thenBranch elseBranch =>
      self_inheritance_free thenBranch
      && match elseBranch with Some s' => self_inheritance_free s' | None => true end
  | WhileStmt _ body => self_inheritance_free body
  | ExpressionStmt _ | PrintStmt _ | ReturnStmt _ _ | VarStmt _ _ => true
  end
with function_self_inheritance_free (func : FunctionStmt) : bool :=
  match func with
  | Function _ _ body => forallb self_inheritance_free body
  end.

(** A step that leaves the scope stack at the height it found it. *)
Definition keeps_height (step : Resolver -> Resolver) : Prop :=
  forall r, length (scopes (step r)) = length (scopes r).

(** ** Invariants of resolver steps *)

(** A step that leaves the observation [proj] of the state as it found it. *)
Definition preserves {A} (proj : Resolver -> A) (step : Resolver -> Resolver) : Prop :=
  forall r, proj (step r) = proj r.

(** Everything of the scope stack but the contents of its innermost scope:
    the scopes below the innermost one, and the height. *)
Definition outer_scopes (r : Resolver) : list Scope * nat :=
  (removelast (scopes r), length (scopes r)).

(** A step whose effect does not depend on what has been reported or
    recorded before: run with any logs, it leaves the scopes and kinds it
    leaves when run with empty logs, and appends what it emits then. *)
Definition log_oblivious (step : Resolver -> Resolver) : Prop :=
  forall s cf cc rep loc,
    step (mkResolver s cf cc rep loc)
    = let r' := step (mkResolver s cf cc [] []) in
      mkResolver (scopes r') (currentFunction r') (currentClass r')
                 (rep ++ reported r') (loc ++ locals r').

(** The two kinds the Resolver tracks. *)
Definition kinds (r : Resolver) : FunctionType.t * ClassType.t :=
  (currentFunction r, currentClass r).

(** The innermost scope after [declare(param); define(param)], and the
    loop over the parameters of a function in [resolveFunction]. *)
Definition declared_and_defined (scope : Scope) (param : Token) : Scope :=
  set_property (lexeme param) true (set_property (lexeme param) false scope).

Definition declare_params (params : list Token) : Resolver -> Resolver :=
  for_each (fun param => declare param >>> define param) params.

(** The expression nodes that pass themselves to [resolveLocal]. *)
Definition resolvable_node (e : Expr) : bool :=
  match e with
  | AssignExpr _ _ | SuperExpr _ | ThisExpr _ | VariableExpr _ => true
  | _ => false
  end.

(** ** Sample inputs *)

Definition tok (lexeme : string) (line : nat) : Token := mkToken lexeme line.

(** A resolver inside three nested scopes: the outermost declares [a], the
    middle one declares [a] and [b], the innermost is empty. *)
Definition three_scopes : Resolver :=
  mkResolver [ {["a" := true]}; {["a" := true; "b" := true]}; ∅ ]
             FunctionType.Function ClassType.None [] [].

(** A resolver outside any class whose only scope has an entry [this]. *)
Definition this_in_scope : Resolver :=
  mkResolver [ {["this" := true]} ] FunctionType.None ClassType.None [] [].

(** [{ class A < A {} var a; var a; }] and the same block without the class. *)
Definition self_inheriting_class : Stmt :=
  ClassStmt (tok "A" 1) (Some (tok "A" 1)) [].

Definition block_after_self_inheritance : list Stmt :=
  [ BlockStmt [ self_inheriting_class; VarStmt (tok "a" 2) None; VarStmt (tok "a" 3) None ] ].

Definition block_with_duplicate : list Stmt :=
  [ BlockStmt [ VarStmt (tok "a" 2) None; VarStmt (tok "a" 3) None ] ].

(** [{ var toString; }], [{ var toString; var toString; }] and
    [{ var toString; { var toString; } }]. *)
Definition declared_once : list Stmt :=
  [ BlockStmt [ VarStmt (tok "toString" 1) None ] ].

Definition declared_twice : list Stmt :=
  [ BlockStmt [ VarStmt (tok "toString" 1) None; VarStmt (tok "toString" 2) None ] ].

Definition declared_nested : list Stmt :=
  [ BlockStmt [ VarStmt (tok "toString" 1) None;
                BlockStmt [ VarStmt (tok "toString" 2) None ] ] ].

(** Sample classes.  A value of a method table is represented here either by
    the declaration of a Lox method or by the name of the [Object.prototype]
    property it is. *)
Inductive SampleMethod :=
| Declared (declaration : FunctionStmt)
| Native (name : string).

(** Modelled from the spec: [LoxFunction.arity] (the file that defines
    [LoxFunction] is not part of this development); the glossary gives the
    arity of a callable as the number of parameters it expects.  A native
    value has no [arity] method; [LoxClass.arity] never asks one for it, as
    it looks up [init] only. *)
Definition declared_arity (f : SampleMethod) : nat :=
  match f with
  | Declared (Function _ params _) => length params
  | Native _ => 0
  end.

(** [class A { init() {} greet() {} }] *)
Definition class_A : LoxClass SampleMethod :=
  mkLoxClass "A" None
    {[ "init" := Declared (Function (tok "init" 2) [] []);
       "greet" := Declared (Function (tok "greet" 3) [] []) ]}.

(** [class B < A { greet(name) {} }] *)
Definition class_B : LoxClass SampleMethod :=
  mkLoxClass "B" (Some class_A)
    {[ "greet" := Declared (Function (tok "greet" 6) [tok "name" 6] []) ]}.

(** [class E {}], [class T { toString() {} }] and [class U < T {}]. *)
Definition class_E : LoxClass SampleMethod := mkLoxClass "E" None ∅.

Definition class_T : LoxClass SampleMethod :=
  mkLoxClass "T" None {[ "toString" := Declared (Function (tok "toString" 2) [] []) ]}.

Definition class_U : LoxClass SampleMethod := mkLoxClass "U" (Some class_T) ∅.

(** A toy world for running [call]: the world counts the allocations and
    calls made so far, an instance is the number it was allocated under, and
    every function call returns the value 42. *)
Definition toy_new (c : LoxClass SampleMethod) (w : nat) : nat * nat := (w, S w).
Definition toy_bind (f : SampleMethod) (instance : nat) : SampleMethod := f.
Definition toy_call (f : SampleMethod) (args : list nat) (w : nat)
  : Completion nat string * nat := (Returned 42, S w).

(** [{ print toString; }], [{ { print toString; } }] and [{ print count; }]:
    reads of names that no scope declares. *)
Definition read_toString : list Stmt :=
  [ BlockStmt [ PrintStmt (VariableExpr (tok "toString" 1)) ] ].

Definition read_toString_nested : list Stmt :=
  [ BlockStmt [ BlockStmt [ PrintStmt (VariableExpr (tok "toString" 1)) ] ] ].

Definition read_count : list Stmt :=
  [ BlockStmt [ PrintStmt (VariableExpr (tok "count" 1)) ] ].

(** [{ var a = a; }] and [{ var __proto__ = __proto__; }]. *)
Definition own_initializer_a : list Stmt :=
  [ BlockStmt [ VarStmt (tok "a" 1) (Some (VariableExpr (tok "a" 1))) ] ].

Definition own_initializer_proto : list Stmt :=
  [ BlockStmt [ VarStmt (tok "__proto__" 1) (Some (VariableExpr (tok "__proto__" 1))) ] ].

(** A resolver inside a function whose only scope declares [a] and [b]. *)
Definition scope_a_b : Resolver :=
  mkResolver [ {["a" := true; "b" := true]} ] FunctionType.Function ClassType.None [] [].

(** [{ var x; fun f(p) { class C { m() { return; } } } if (x) { x = 1; } }]
    as the body of a block. *)
Definition nested_program : list Stmt :=
  [ VarStmt (tok "x" 1) None;
    FunctionDecl
      (Function (tok "f" 2) [tok "p" 2]
         [ ClassStmt (tok "C" 3) None
             [ Function (tok "m" 4) [] [ReturnStmt (tok "return" 4) None] ] ]);
    IfStmt (VariableExpr (tok "x" 6))
           (BlockStmt [ExpressionStmt (AssignExpr (tok "x" 6) LiteralExpr)]) None ].

(** * Properties *)

(** ** Frame facts: which part of the state each step touches *)

Lemma isEmpty_nil (s : list Scope) : isEmpty s = true <-> s = [].
Proof.
  unfold isEmpty. rewrite bool_decide_eq_true.
  destruct s; simpl; split; intros; try done; lia.
Qed.

Lemma isEmpty_false_last (s : list Scope) :
  isEmpty s = false -> exists scope, peek s = Some scope.
Proof.
  intros H. destruct s as [|x s] using rev_ind.
  - exfalso. assert (isEmpty [] = true) by (apply isEmpty_nil; done). congruence.
  - exists x. unfold peek. apply last_snoc.
Qed.

Lemma resolveLocal_loop_cases k expr name r :
  resolveLocal_loop k expr name r = r \/
  exists i, i < k /\
    resolveLocal_loop k expr name r = interpreter_resolve expr (length (scopes r) - 1 - i) r.
Proof.
  induction k as [|k IH]; simpl.
  - by left.
  - destruct (scopes r !! k) as [scope|].
    + destruct (has_property (lexeme name) scope).
      * right. exists k. split; [lia | done].
      * destruct IH as [IH | (i & Hi & IH)]; [by left | right; exists i; split; [lia | done]].
    + destruct IH as [IH | (i & Hi & IH)]; [by left | right; exists i; split; [lia | done]].
Qed.

Lemma resolveLocal_loop_found k expr name r i scope :
  i < k ->
  scopes r !! i = Some scope ->
  has_property (lexeme name) scope = true ->
  (forall j scope', i < j -> j < k -> scopes r !! j = Some scope' ->
                    has_property (lexeme name) scope' = false) ->
  resolveLocal_loop k expr name r
  = interpreter_resolve expr (length (scopes r) - 1 - i) r.
Proof.
  induction k as [|k IH]; intros Hik Hi Hin Hout; [lia|].
  simpl. destruct (decide (i = k)) as [->|Hne].
  - by rewrite Hi, Hin.
  - assert (Hlt : i < k) by lia.
    destruct (scopes r !! k) as [scope'|] eqn:Hk.
    + rewrite (Hout k scope') by (done || lia).
      apply IH; [done..|]. intros j s' ? ? ?. apply (Hout j); (done || lia).
    + apply IH; [done..|]. intros j s' ? ? ?. apply (Hout j); (done || lia).
Qed.

Lemma resolveLocal_loop_absent k expr name r :
  (forall i scope, i < k -> scopes r !! i = Some scope ->
                   has_property (lexeme name) scope = false) ->
  resolveLocal_loop k expr name r = r.
Proof.
  induction k as [|k IH]; intros Hnone; [done|].
  simpl. destruct (scopes r !! k) as [scope|] eqn:Hk.
  - rewrite (Hnone k scope) by (done || lia).
    apply IH. intros i s ? ?. apply (Hnone i); (done || lia).
  - apply IH. intros i s ? ?. apply (Hnone i); (done || lia).
Qed.

(** ** C1: resolveLocal *)

(** [resolveLocal(expr, name)], called for any expression node (the
    variable, assignment, [this] and [super] visitors pass their own node)
    while the scope stack has [n = length (scopes r)] scopes: if the scope at
    stack index [i] contains the name and no scope above it (nearer to the
    innermost end) does, the only effect is the call
    [interpreter.resolve(expr, n - 1 - i)]; if no scope on the stack
    contains the name, nothing at all is recorded.  "Contains" is the
    source's test [name.lexeme in scope]. *)
Lemma resolveLocal_records_innermost_depth (expr : Expr) (name : Token) (r : Resolver) :
  (forall i scope,
      scopes r !! i = Some scope ->
      has_property (lexeme name) scope = true ->
      (forall j scope', i < j -> scopes r !! j = Some scope' ->
                        has_property (lexeme name) scope' = false) ->
      resolveLocal expr name r
      = mkResolver (scopes r) (currentFunction r) (currentClass r) (reported r)
                   (locals r ++ [(expr, length (scopes r) - 1 - i)]))
  /\
  ((forall i scope, scopes r !! i = Some scope ->
                    has_property (lexeme name) scope = false) ->
   resolveLocal expr name r = r).
Proof.
  split.
  - intros i scope Hi Hin Hout. unfold resolveLocal.
    erewrite resolveLocal_loop_found; [done | | done | done |].
    + by eapply lookup_lt_Some.
    + intros j s' ? _ ?. by eapply Hout.
  - intros Hnone. apply resolveLocal_loop_absent.
    intros i s _ ?. by eapply Hnone.
Qed.

Lemma resolveLocal_records_innermost_depth_example :
  resolveLocal (AssignExpr (tok "a" 7) LiteralExpr) (tok "a" 7) three_scopes
  = mkResolver (scopes three_scopes) FunctionType.Function ClassType.None []
               [(AssignExpr (tok "a" 7) LiteralExpr, 1)]
  /\ resolveLocal (VariableExpr (tok "c" 8)) (tok "c" 8) three_scopes = three_scopes.
Proof.
  split.
  - apply (proj1 (resolveLocal_records_innermost_depth
                    (AssignExpr (tok "a" 7) LiteralExpr) (tok "a" 7) three_scopes)
             1 {["a" := true; "b" := true]}).
    + reflexivity.
    + vm_compute. reflexivity.
    + intros [|[|[|j]]] scope' Hlt Hj; try lia; simpl in Hj.
      * injection Hj as <-. vm_compute. reflexivity.
      * discriminate.
  - apply (proj2 (resolveLocal_records_innermost_depth
                    (VariableExpr (tok "c" 8)) (tok "c" 8) three_scopes)).
    intros [|[|[|i]]] scope Hi; simpl in Hi; try discriminate;
      injection Hi as <-; vm_compute; reflexivity.
Defined.

(** For a name that [Object.prototype] does not define, [name in scope] is
    the test for an own entry, and the depth recorded is that of the
    innermost scope that has an entry for the name. *)
Lemma has_property_own k (scope : Scope) :
  inherited k = false -> has_property k scope = bool_decide (is_Some (scope !! k)).
Proof. unfold has_property. intros ->. by rewrite orb_false_r. Qed.

Lemma resolveLocal_own_entries (expr : Expr) (name : Token) (r : Resolver) :
  inherited (lexeme name) = false ->
  (forall i scope,
      scopes r !! i = Some scope ->
      is_Some (scope !! lexeme name) ->
      (forall j scope', i < j -> scopes r !! j = Some scope' ->
                        scope' !! lexeme name = None) ->
      resolveLocal expr name r
      = mkResolver (scopes r) (currentFunction r) (currentClass r) (reported r)
                   (locals r ++ [(expr, length (scopes r) - 1 - i)]))
  /\
  ((forall i scope, scopes r !! i = Some scope -> scope !! lexeme name = None) ->
   resolveLocal expr name r = r).
Proof.
  intros Hname.
  destruct (resolveLocal_records_innermost_depth expr name r) as [Hfound Habsent].
  split.
  - intros i scope Hi Hin Hout. apply (Hfound i scope Hi).
    + rewrite has_property_own by done. by apply bool_decide_eq_true_2.
    + intros j scope' Hj Hlook. rewrite has_property_own by done.
      apply bool_decide_eq_false_2. rewrite (Hout j scope' Hj Hlook).
      by intros [? ?].
  - intros Hnone. apply Habsent. intros i scope Hi.
    rewrite has_property_own by done.
    apply bool_decide_eq_false_2. rewrite (Hnone i scope Hi). by intros [? ?].
Qed.

(** A name that [Object.prototype] defines is found in the innermost scope,
    whatever the scopes hold. *)
Lemma resolveLocal_prototype_name (expr : Expr) (name : Token) (r : Resolver) :
  inherited (lexeme name) = true ->
  scopes r <> [] ->
  resolveLocal expr name r
  = mkResolver (scopes r) (currentFunction r) (currentClass r) (reported r)
               (locals r ++ [(expr, 0)]).
Proof.
  intros Hname Hne.
  destruct (scopes r) as [|x l] eqn:Hs using rev_ind; [done|]. clear IHl.
  destruct (resolveLocal_records_innermost_depth expr name r) as [Hfound _].
  rewrite (Hfound (length l) x).
  - rewrite Hs, length_app. simpl.
    by replace (length l + 1 - 1 - length l) with 0 by lia.
  - rewrite Hs. by apply list_lookup_middle.
  - unfold has_property. rewrite Hname. apply orb_true_r.
  - intros j scope' Hj Hlook. apply lookup_lt_Some in Hlook.
    rewrite Hs, length_app in Hlook. simpl in Hlook. lia.
Qed.

(** C1 at a name that [Object.prototype] defines.  [resolveLocal] tests
    [name.lexeme in this.scopes[i]] on scopes created by [{}], and [in] also
    finds inherited properties.  In [{ print toString; }] the only scope on
    the stack is empty when [toString] is read, and depth 0 is recorded for
    the read all the same; likewise in [{ { print toString; } }], where
    neither scope declares it.  The read of [count] in [{ print count; }],
    a name outside [Object.prototype], is left unrecorded. *)
Theorem resolveLocal_finds_prototype_names :
  scopes (beginScope initial) = [∅]
  /\ locals (resolveLocal (VariableExpr (tok "toString" 1)) (tok "toString" 1)
               (beginScope initial))
     = [(VariableExpr (tok "toString" 1), 0)]
  /\ locals (resolve read_toString initial) = [(VariableExpr (tok "toString" 1), 0)]
  /\ locals (resolve read_toString_nested initial)
     = [(VariableExpr (tok "toString" 1), 0)]
  /\ locals (resolve read_count initial) = [].
Proof. repeat split; vm_compute; reflexivity. Qed.

Lemma resolveLocal_loop_logs k expr name s cf cc rep loc :
  resolveLocal_loop k expr name (mkResolver s cf cc rep loc)
  = mkResolver s cf cc rep
      (loc ++ locals (resolveLocal_loop k expr name (mkResolver s cf cc [] []))).
Proof.
  induction k as [|k IH]; simpl.
  - by rewrite app_nil_r.
  - destruct (s !! k) as [scope|]; [destruct (has_property (lexeme name) scope)|]; done.
Qed.

Lemma resolveLocal_frame expr name r :
  scopes (resolveLocal expr name r) = scopes r
  /\ currentFunction (resolveLocal expr name r) = currentFunction r
  /\ currentClass (resolveLocal expr name r) = currentClass r
  /\ reported (resolveLocal expr name r) = reported r.
Proof.
  unfold resolveLocal.
  destruct (resolveLocal_loop_cases (length (scopes r)) expr name r) as [-> | (i & _ & ->)];
    done.
Qed.

Lemma resolveLocal_report expr name msg ln r :
  resolveLocal expr name (report msg ln r) = report msg ln (resolveLocal expr name r).
Proof.
  destruct r as [s cf cc rep loc]. unfold resolveLocal, report. simpl.
  rewrite (resolveLocal_loop_logs _ _ _ _ _ _ (rep ++ _)).
  by rewrite (resolveLocal_loop_logs _ _ _ _ _ _ rep loc).
Qed.

(** ** C3: [this] and [super] *)

(** C3, as stated, fails: outside any class, [visitThisExpr] reports its
    error and returns; it does not go on to [resolveLocal], which in this
    state would have recorded depth 0 for the node. *)
Lemma this_outside_class_returns_before_resolveLocal :
  resolveExpr (ThisExpr (tok "this" 3)) this_in_scope
  <> resolveLocal (ThisExpr (tok "this" 3)) (tok "this" 3)
       (report "Can't use 'this' outside of a class" 3 this_in_scope).
Proof.
  intros H. apply (f_equal locals) in H. vm_compute in H. discriminate.
Qed.

(** C3, amended.  A [super] expression reports an error when the current
    class kind is None, a different one when it is Class (not Subclass), and
    in every case then calls [resolveLocal] for the keyword token.  A [this]
    expression calls [resolveLocal] for the keyword token when the current
    class kind is not None; when it is None it reports its error and does
    nothing else, so no depth is recorded for the node.  In both cases the
    statements that follow are resolved from the resulting state. *)
Theorem super_and_this_resolution (keyword : Token) (r : Resolver) :
  resolveExpr (SuperExpr keyword) r
  = resolveLocal (SuperExpr keyword) keyword
      (match currentClass r with
       | ClassType.None =>
           report "Can't use 'super' outside of class" (line keyword) r
       | ClassType.Class =>
           report "Can't use 'super' in a class with no superclass" (line keyword) r
       | ClassType.SubClass => r
       end)
  /\ (currentClass r = ClassType.None ->
      resolveExpr (ThisExpr keyword) r
      = report "Can't use 'this' outside of a class" (line keyword) r
      /\ locals (resolveExpr (ThisExpr keyword) r) = locals r)
  /\ (currentClass r <> ClassType.None ->
      resolveExpr (ThisExpr keyword) r = resolveLocal (ThisExpr keyword) keyword r
      /\ reported (resolveExpr (ThisExpr keyword) r) = reported r)
  /\ (forall rest,
         resolve (ExpressionStmt (SuperExpr keyword) :: rest) r
         = resolve rest (resolveExpr (SuperExpr keyword) r)
         /\ resolve (ExpressionStmt (ThisExpr keyword) :: rest) r
            = resolve rest (resolveExpr (ThisExpr keyword) r)).
Proof.
  split; [|split; [|split]].
  - simpl. unfold visitSuperExpr, and_then. by destruct (currentClass r).
  - intros Hnone. simpl. unfold visitThisExpr. by rewrite Hnone.
  - intros Hclass. simpl. unfold visitThisExpr.
    destruct (currentClass r); [done | |]; (split; [done | apply resolveLocal_frame]).
  - intros rest. split; reflexivity.
Qed.

Lemma super_and_this_resolution_witness :
  resolveExpr (ThisExpr (tok "this" 3)) this_in_scope
  = report "Can't use 'this' outside of a class" 3 this_in_scope
  /\ locals (resolveExpr (ThisExpr (tok "this" 3)) this_in_scope) = [].
Proof.
  apply (proj1 (proj2 (super_and_this_resolution (tok "this" 3) this_in_scope))).
  reflexivity.
Defined.

(** ** C5: return statements *)


(** ** C6: reading a variable in its own initializer *)

Lemma last_alter_last {A} (f : A -> A) (l : list A) :
  last (alter f (length l - 1) l) = f <$> last l.
Proof.
  destruct l as [|x l] using rev_ind; [done|].
  rewrite length_app. simpl.
  replace (length l + 1 - 1) with (length l + 0) by lia.
  rewrite alter_app_r. simpl. by rewrite !last_snoc.
Qed.

(** A variable access reports "Can't read local variable in its own
    initializer" (once, at the line of the name) when the scope stack is
    non-empty and the innermost scope maps the name to [false], and reports
    nothing otherwise.  A var statement declares the name, then resolves the
    initializer if there is one, and only then defines the name. *)
Lemma variable_read_in_own_initializer (name : Token) (r : Resolver) :
  let declared_not_ready :=
    scopes r <> [] /\
    exists scope, last (scopes r) = Some scope /\ scope !! lexeme name = Some false in
  (declared_not_ready ->
   reported (resolveExpr (VariableExpr name) r)
   = reported r ++ [mkResolvingError "Can't read local variable in its own initializer"
                                     (line name)])
  /\ (~ declared_not_ready ->
      reported (resolveExpr (VariableExpr name) r) = reported r)
  /\ (forall initializer,
         resolveStmt (VarStmt name (Some initializer)) r
         = define name (resolveExpr initializer (declare name r)))
  /\ resolveStmt (VarStmt name None) r = define name (declare name r).
Proof.
  intros cond. subst cond. simpl. unfold visitVariableExpr, and_then.
  split; [|split; [|split]]; try done.
  - intros (Hne & scope & Hlast & Hfalse).
    assert (isEmpty (scopes r) = false) as ->.
    { destruct (isEmpty (scopes r)) eqn:E; [|done]. by apply isEmpty_nil in E. }
    unfold peek. rewrite Hlast. simpl. unfold is_false.
    rewrite bool_decide_eq_true_2 by done.
    by destruct (resolveLocal_frame (VariableExpr name) name
                   (report "Can't read local variable in its own initializer" (line name) r))
      as (_ & _ & _ & ->).
  - intros Hnot.
    destruct (negb (isEmpty (scopes r))
              && from_option (is_false (lexeme name)) false (peek (scopes r))) eqn:E.
    + exfalso. apply Hnot. apply andb_true_iff in E as [E1 E2].
      split.
      * intros Hnil. rewrite Hnil in E1. done.
      * unfold peek in E2. destruct (last (scopes r)) as [scope|]; [|done].
        exists scope. split; [done|]. simpl in E2. unfold is_false in E2.
        by apply bool_decide_eq_true in E2.
    + by destruct (resolveLocal_frame (VariableExpr name) name r) as (_ & _ & _ & ->).
Qed.

Lemma variable_read_in_own_initializer_example :
  reported (resolveExpr (VariableExpr (tok "a" 4))
              (mkResolver [ {["a" := false]} ] FunctionType.None ClassType.None [] []))
  = [mkResolvingError "Can't read local variable in its own initializer" 4].
Proof.
  apply (proj1 (variable_read_in_own_initializer (tok "a" 4)
                  (mkResolver [ {["a" := false]} ] FunctionType.None ClassType.None [] []))).
  split; [discriminate|].
  exists {["a" := false]}. split; [reflexivity | vm_compute; reflexivity].
Defined.

(** ** C4: declare *)

Lemma has_property_set_property k v (scope : Scope) :
  has_property k (set_property k v scope) = true.
Proof.
  unfold has_property, set_property.
  destruct (String.eqb k "__proto__") eqn:E.
  - apply String.eqb_eq in E as ->. apply orb_true_iff. by right.
  - apply orb_true_iff. left. apply bool_decide_eq_true.
    rewrite lookup_insert_eq. by eexists.
Qed.

Lemma has_property_empty k : has_property k (∅ : Scope) = inherited k.
Proof.
  unfold has_property. rewrite lookup_empty.
  rewrite bool_decide_eq_false_2; [done|]. by intros [? ?].
Qed.

Lemma declare_top_level name r : scopes r = [] -> declare name r = r.
Proof. intros H. unfold declare. by rewrite H. Qed.

Lemma declare_in_scope name r scope :
  last (scopes r) = Some scope ->
  declare name r
  = mkResolver (alter (set_property (lexeme name) false) (length (scopes r) - 1) (scopes r))
               (currentFunction r) (currentClass r)
               (reported r ++
                  if has_property (lexeme name) scope
                  then [mkResolvingError "Already variable with this name in scope" (line name)]
                  else [])
               (locals r).
Proof.
  intros Hlast. unfold declare, peek. rewrite Hlast.
  assert (isEmpty (scopes r) = false) as ->.
  { destruct (isEmpty (scopes r)) eqn:E; [|done].
    apply isEmpty_nil in E. by rewrite E in Hlast. }
  unfold and_then, assign_peek, set_scopes, report, skip.
  destruct (has_property (lexeme name) scope); simpl; [done|].
  by rewrite app_nil_r.
Qed.

(** Outside the names of [Object.prototype] the duplicate check behaves as
    the specification describes: the second of two declarations in one scope
    is the only one reported. *)
Lemma declare_twice_in_one_scope first second r scope :
  last (scopes r) = Some scope ->
  has_property (lexeme first) scope = false ->
  lexeme second = lexeme first ->
  reported (declare second (declare first r))
  = reported r ++ [mkResolvingError "Already variable with this name in scope" (line second)].
Proof.
  intros Hlast Hfresh Heq.
  rewrite (declare_in_scope first r scope Hlast), Hfresh, app_nil_r.
  erewrite declare_in_scope; simpl.
  2: { rewrite last_alter_last, Hlast. reflexivity. }
  by rewrite Heq, has_property_set_property.
Qed.

(** ... and a redeclaration in a nested scope is not reported. *)
Lemma declare_in_nested_scopes first second r scope :
  last (scopes r) = Some scope ->
  has_property (lexeme first) scope = false ->
  lexeme second = lexeme first ->
  reported (declare second (beginScope (declare first r))) = reported r.
Proof.
  intros Hlast Hfresh Heq.
  rewrite (declare_in_scope first r scope Hlast), Hfresh, app_nil_r.
  erewrite declare_in_scope; simpl.
  2: { apply last_snoc. }
  rewrite has_property_empty, Heq.
  unfold has_property in Hfresh. apply orb_false_iff in Hfresh as [_ ->].
  by rewrite app_nil_r.
Qed.

(** The window itself: between [declare] and [define] the innermost scope
    maps the name to [false], after [define] to [true].  ([__proto__] is
    left out: the scope object ignores both assignments to it.) *)
Lemma var_statement_window name r scope :
  last (scopes r) = Some scope ->
  lexeme name <> "__proto__" ->
  (exists scope', last (scopes (declare name r)) = Some scope'
                  /\ scope' !! lexeme name = Some false)
  /\ (exists scope', last (scopes (define name (declare name r))) = Some scope'
                     /\ scope' !! lexeme name = Some true).
Proof.
  intros Hlast Hname.
  assert (Hset : forall v (sc : Scope),
             set_property (lexeme name) v sc !! lexeme name = Some v).
  { intros v sc. unfold set_property.
    destruct (String.eqb (lexeme name) "__proto__") eqn:E.
    - by apply String.eqb_eq in E.
    - apply lookup_insert_eq. }
  assert (Hdeclared : last (scopes (declare name r))
                      = Some (set_property (lexeme name) false scope)).
  { rewrite (declare_in_scope name r scope Hlast). simpl.
    by rewrite last_alter_last, Hlast. }
  split.
  - eexists. split; [exact Hdeclared | apply Hset].
  - unfold define.
    assert (isEmpty (scopes (declare name r)) = false) as ->.
    { destruct (isEmpty (scopes (declare name r))) eqn:E; [|done].
      apply isEmpty_nil in E. by rewrite E in Hdeclared. }
    unfold assign_peek. simpl. rewrite last_alter_last, Hdeclared. simpl.
    eexists. split; [done | apply Hset].
Qed.

(** Between [declare] and [define] a read of the declared name is reported:
    for every name but [__proto__], and inside some scope, a var statement
    whose initializer is a read of its own name reports what [declare]
    reports and then the read. *)
Lemma own_initializer_is_reported name use r scope :
  last (scopes r) = Some scope ->
  lexeme name <> "__proto__" ->
  lexeme use = lexeme name ->
  reported (resolveStmt (VarStmt name (Some (VariableExpr use))) r)
  = reported (declare name r)
    ++ [mkResolvingError "Can't read local variable in its own initializer" (line use)].
Proof.
  intros Hlast Hname Huse.
  destruct (var_statement_window name r scope Hlast Hname)
    as [(scope' & Hdeclared & Hfalse) _].
  change (resolveStmt (VarStmt name (Some (VariableExpr use))) r)
    with (define name (resolveExpr (VariableExpr use) (declare name r))).
  assert (Hdefine : forall r', reported (define name r') = reported r').
  { intros r'. unfold define. by destruct (isEmpty (scopes r')). }
  rewrite Hdefine.
  apply (proj1 (variable_read_in_own_initializer use (declare name r))).
  split.
  - intros Hnil. by rewrite Hnil in Hdeclared.
  - exists scope'. split; [done | by rewrite Huse].
Qed.

(** C6 for the name [__proto__].  A scope is created by [{}]; the
    assignment [scope['__proto__'] = false] that [declare] makes goes to the
    setter of [Object.prototype], which ignores a boolean, so that the scope
    never maps [__proto__] to [false].  In [{ var a = a; }] the read in the
    initializer is reported; in [{ var __proto__ = __proto__; }] it is not:
    the only diagnostic is the one of [declare] (which finds [__proto__] in
    the fresh scope), and the scope is still empty after [declare] and after
    [define]. *)
Theorem var_statement_opens_no_window_for_proto :
  reported (resolve own_initializer_a initial)
  = [mkResolvingError "Can't read local variable in its own initializer" 1]
  /\ reported (resolve own_initializer_proto initial)
     = [mkResolvingError "Already variable with this name in scope" 1]
  /\ scopes (declare (tok "__proto__" 1) (beginScope initial)) = [∅]
  /\ scopes (define (tok "__proto__" 1)
               (declare (tok "__proto__" 1) (beginScope initial))) = [∅]
  /\ scopes (declare (tok "a" 1) (beginScope initial)) = [ {["a" := false]} ]
  /\ scopes (define (tok "a" 1) (declare (tok "a" 1) (beginScope initial)))
     = [ {["a" := true]} ].
Proof. repeat split; vm_compute; reflexivity. Qed.

(** C4 at names that [Object.prototype] defines.  The duplicate check is
    [name.lexeme in scope] on an object created by [{}], and [in] also finds
    inherited properties: the single declaration in [{ var toString; }] is
    already reported, two declarations in one block are reported twice (the
    first with the line of the first token), and a redeclaration in a nested
    block is reported as well. *)
Theorem declare_reports_prototype_names :
  reported (declare (tok "toString" 1) (beginScope initial))
  = [mkResolvingError "Already variable with this name in scope" 1]
  /\ reported (resolve declared_once initial)
     = [mkResolvingError "Already variable with this name in scope" 1]
  /\ reported (resolve declared_twice initial)
     = [mkResolvingError "Already variable with this name in scope" 1;
        mkResolvingError "Already variable with this name in scope" 2]
  /\ reported (resolve declared_nested initial)
     = [mkResolvingError "Already variable with this name in scope" 1;
        mkResolvingError "Already variable with this name in scope" 2].
Proof. repeat split; vm_compute; reflexivity. Qed.

(** ** C2: class declarations *)

(** C2 at a class that names itself as its superclass, inside a block.  The
    error branch does not push the [super] scope, but the closing
    [if (stmt.superclass !== null) this.endScope()] still pops one: the
    block's own scope is removed, and the duplicate declaration that follows
    the class in [{ class A < A {} var a; var a; }] is resolved as if at top
    level and goes unreported. *)
Theorem self_inheriting_class_pops_enclosing_scope :
  length (scopes (beginScope initial)) = 1
  /\ length (scopes (resolveStmt self_inheriting_class (beginScope initial))) = 0
  /\ reported (resolve block_after_self_inheritance initial)
     = [mkResolvingError "A class can't inherit from itself." 1]
  /\ reported (resolve block_with_duplicate initial)
     = [mkResolvingError "Already variable with this name in scope" 3].
Proof. repeat split; vm_compute; reflexivity. Qed.

(** ** LoxClass *)

Section FindMethod.
Context {LoxFunction : Type}.
Variable prototype_property : string -> LoxFunction.
Implicit Types (c s : LoxClass LoxFunction) (name : string).

(** Induction along the superclass link. *)
Lemma LoxClass_superclass_ind (P : LoxClass LoxFunction -> Prop) :
  (forall n own, P (mkLoxClass n None own)) ->
  (forall n s own, P s -> P (mkLoxClass n (Some s) own)) ->
  forall c, P c.
Proof.
  intros Hroot Hsub. fix IH 1. intros [n [s|] own].
  - apply Hsub, IH.
  - apply Hroot.
Qed.

Lemma findMethod_own name c f :
  methods c !! name = Some f -> findMethod prototype_property name c = Some f.
Proof. destruct c as [n sup own]. simpl. by intros ->. Qed.

(** A name of [Object.prototype] is found in every method table. *)
Lemma findMethod_prototype_name name c :
  inherited name = true ->
  findMethod prototype_property name c
  = Some (default (prototype_property name) (methods c !! name)).
Proof.
  intros Hname. destruct c as [n sup own]. simpl.
  destruct (own !! name); [done|]. by rewrite Hname.
Qed.

Lemma findMethod_inherit name c s :
  inherited name = false ->
  methods c !! name = None -> superclass c = Some s ->
  findMethod prototype_property name c = findMethod prototype_property name s.
Proof. intros Hname. destruct c as [n sup own]. simpl. intros -> ->. by rewrite Hname. Qed.

Lemma findMethod_first_match name i : forall c ci f,
  inherited name = false ->
  superclass_chain c !! i = Some ci ->
  methods ci !! name = Some f ->
  (forall j cj, j < i -> superclass_chain c !! j = Some cj -> methods cj !! name = None) ->
  findMethod prototype_property name c = Some f.
Proof.
  induction i as [|i IH]; intros c ci f Hname Hi Hf Hbefore.
  - destruct c as [n [s|] own]; simpl in Hi; injection Hi as <-;
      by apply findMethod_own.
  - assert (Hown : methods c !! name = None).
    { apply (Hbefore 0 c); [lia|]. by destruct c as [n [s|] own]. }
    destruct c as [n [s|] own]; simpl in Hi; [|done].
    rewrite (findMethod_inherit name _ s) by done.
    apply (IH s ci f); [done..|].
    intros j cj Hj Hcj. apply (Hbefore (S j) cj); [lia | done].
Qed.

Lemma findMethod_absent name : forall c,
  inherited name = false ->
  (forall ci, ci ∈ superclass_chain c -> methods ci !! name = None) ->
  findMethod prototype_property name c = None.
Proof.
  induction c as [n own | n s own IH] using LoxClass_superclass_ind; intros Hname Hnone.
  - assert (Hown : own !! name = None).
    { apply (Hnone (mkLoxClass n None own)). simpl. set_solver. }
    simpl. by rewrite Hown, Hname.
  - assert (Hown : own !! name = None).
    { apply (Hnone (mkLoxClass n (Some s) own)). simpl. set_solver. }
    simpl. rewrite Hown, Hname.
    apply IH; [done|]. intros ci Hci. apply Hnone. simpl. set_solver.
Qed.

Lemma findMethod_defined name : forall c f,
  inherited name = false ->
  findMethod prototype_property name c = Some f ->
  exists ci, ci ∈ superclass_chain c /\ methods ci !! name = Some f.
Proof.
  induction c as [n own | n s own IH] using LoxClass_superclass_ind;
    intros f Hname; simpl; rewrite Hname.
  - destruct (own !! name) as [g|] eqn:E; [|done].
    intros [= <-]. exists (mkLoxClass n None own). split; [set_solver | done].
  - destruct (own !! name) as [g|] eqn:E.
    + intros [= <-]. exists (mkLoxClass n (Some s) own). split; [set_solver | done].
    + intros (ci & Hci & Hf)%IH; [|done]. exists ci. split; [set_solver | done].
Qed.

(** For a name that [Object.prototype] does not define, [findMethod(name)]
    returns the class's own method when its method table has the name;
    otherwise it is the superclass's answer; along the chain class,
    superclass, superclass of the superclass, ... the result is the method of
    the first class whose table has the name; and when no class of the chain
    has it the result is [null] ([None]). *)
Lemma findMethod_walks_superclass_chain name c :
  inherited name = false ->
  (forall f, methods c !! name = Some f -> findMethod prototype_property name c = Some f)
  /\ (forall s, methods c !! name = None -> superclass c = Some s ->
                findMethod prototype_property name c = findMethod prototype_property name s)
  /\ (forall i ci f,
         superclass_chain c !! i = Some ci ->
         methods ci !! name = Some f ->
         (forall j cj, j < i -> superclass_chain c !! j = Some cj ->
                       methods cj !! name = None) ->
         findMethod prototype_property name c = Some f)
  /\ ((forall ci, ci ∈ superclass_chain c -> methods ci !! name = None) ->
      findMethod prototype_property name c = None).
Proof.
  intros Hname. split; [|split; [|split]].
  - intros f. apply findMethod_own.
  - intros s. by apply findMethod_inherit.
  - intros i ci f. by apply findMethod_first_match.
  - by apply findMethod_absent.
Qed.

End FindMethod.

(** C7 at a name that [Object.prototype] defines.  [findMethod] tests
    [name in this.methods] on an ordinary object, and [in] also finds
    inherited properties: for [class E {}], which defines no method,
    [findMethod('toString')] returns the prototype's [toString] and not
    [null]; for [class U < T {}] it returns the prototype's [toString] and
    not the method that the superclass [T] defines.  A name outside
    [Object.prototype] is looked up along the chain ([missing] is not found,
    [greet] and the inherited [init] are). *)
Theorem findMethod_returns_prototype_properties :
  findMethod Native "toString" class_E = Some (Native "toString")
  /\ findMethod Native "toString" class_T
     = Some (Declared (Function (tok "toString" 2) [] []))
  /\ findMethod Native "toString" class_U = Some (Native "toString")
  /\ findMethod Native "missing" class_U = None
  /\ findMethod Native "greet" class_B
     = Some (Declared (Function (tok "greet" 6) [tok "name" 6] []))
  /\ findMethod Native "init" class_B = Some (Declared (Function (tok "init" 2) [] [])).
Proof. repeat split; vm_compute; reflexivity. Qed.

Section Call.
Context {LoxFunction LoxObject LoxInstance World RuntimeError : Type}.
Variable prototype_property : string -> LoxFunction.
Variable bind : LoxFunction -> LoxInstance -> LoxFunction.
Variable function_call :
  LoxFunction -> list LoxObject -> World -> Completion LoxObject RuntimeError * World.
Variable new_LoxInstance : LoxClass LoxFunction -> World -> LoxInstance * World.

(** C9.  [call] creates the instance with [new LoxInstance(this)] and
    returns that instance: directly, in the world the constructor left,
    when [findMethod('init')] finds nothing; and, when it finds an
    initializer (own or inherited), after calling the initializer bound to
    the new instance with the same arguments, whatever value [v] that call
    returned.  (A runtime error thrown by the initializer is not caught.) *)
Theorem call_returns_the_new_instance (c : LoxClass LoxFunction) (args : list LoxObject) (w w1 : World)
    (instance : LoxInstance) :
  new_LoxInstance c w = (instance, w1) ->
  (findMethod prototype_property "init" c = None ->
   call prototype_property bind function_call new_LoxInstance c args w
   = (Returned instance, w1))
  /\ (forall initializer v w2,
         findMethod prototype_property "init" c = Some initializer ->
         function_call (bind initializer instance) args w1 = (Returned v, w2) ->
         call prototype_property bind function_call new_LoxInstance c args w
         = (Returned instance, w2))
  /\ (forall initializer e w2,
         findMethod prototype_property "init" c = Some initializer ->
         function_call (bind initializer instance) args w1 = (Thrown e, w2) ->
         call prototype_property bind function_call new_LoxInstance c args w
         = (Thrown e, w2)).
Proof.
  intros Hnew. unfold call. rewrite Hnew.
  split; [|split].
  - by intros ->.
  - intros initializer v w2 -> Hcall. by rewrite Hcall.
  - intros initializer e w2 -> Hcall. by rewrite Hcall.
Qed.

End Call.

Section Arity.
Context {LoxFunction : Type}.
Variable prototype_property : string -> LoxFunction.
Variable function_arity : LoxFunction -> nat.

(** C10, amended.  [arity] is the arity of the [init] method that
    [findMethod] finds, so a class without an [init] of its own has the
    arity of its superclass; it is 0 when no class of the superclass chain
    defines [init], and a non-zero arity implies that some class of the
    chain defines [init].  (An [init] that takes no parameters also gives
    0.) *)
Theorem arity_is_the_arity_of_init (c : LoxClass LoxFunction) :
  (forall initializer, findMethod prototype_property "init" c = Some initializer ->
                       arity prototype_property function_arity c
                       = function_arity initializer)
  /\ (forall s, methods c !! "init" = None -> superclass c = Some s ->
                arity prototype_property function_arity c
                = arity prototype_property function_arity s)
  /\ ((forall ci, ci ∈ superclass_chain c -> methods ci !! "init" = None) ->
      arity prototype_property function_arity c = 0)
  /\ (arity prototype_property function_arity c <> 0 ->
      exists ci, ci ∈ superclass_chain c /\ is_Some (methods ci !! "init")).
Proof.
  assert (Hinit : inherited "init" = false) by (vm_compute; reflexivity).
  unfold arity. split; [|split; [|split]].
  - by intros initializer ->.
  - intros s Hown Hsup. by rewrite (findMethod_inherit _ _ _ s Hinit).
  - intros Hnone. by rewrite findMethod_absent.
  - destruct (findMethod prototype_property "init" c) as [f|] eqn:E; [|done].
    intros _. apply findMethod_defined in E as (ci & Hci & Hf); [|done].
    exists ci. split; [done | by eexists].
Qed.
End Arity.

Lemma findMethod_walks_superclass_chain_example :
  findMethod Native "init" class_B = Some (Declared (Function (tok "init" 2) [] []))
  /\ findMethod Native "missing" class_B = None.
Proof.
  split.
  - apply (proj1 (proj2 (proj2 (findMethod_walks_superclass_chain Native "init" class_B
                                  eq_refl)))
             1 class_A).
    + reflexivity.
    + vm_compute. reflexivity.
    + intros [|j] cj Hj Hcj; [|lia]. injection Hcj as <-. vm_compute. reflexivity.
  - apply (proj2 (proj2 (proj2 (findMethod_walks_superclass_chain Native "missing" class_B
                                  eq_refl)))).
    intros ci Hci. simpl in Hci.
    apply elem_of_cons in Hci as [-> | Hci]; [vm_compute; reflexivity|].
    apply list_elem_of_singleton in Hci as ->. vm_compute. reflexivity.
Defined.

Lemma call_returns_the_new_instance_witness :
  call Native toy_bind toy_call toy_new class_B [1; 2] 0 = (Returned 0, 2).
Proof.
  apply (proj1 (proj2 (call_returns_the_new_instance Native toy_bind toy_call toy_new
                         class_B [1; 2] 0 1 0 eq_refl))
           (Declared (Function (tok "init" 2) [] [])) 42 2).
  - vm_compute. reflexivity.
  - reflexivity.
Defined.

(** C10, as stated, fails in one direction: [class A { init() {} ... }]
    defines [init], and its arity is 0 all the same. *)
Lemma arity_zero_with_init_defined :
  ~ (arity Native declared_arity class_A = 0 <->
     forall ci, ci ∈ superclass_chain class_A -> methods ci !! "init" = None).
Proof.
  intros [Hzero _].
  assert (Hinit : methods class_A !! "init" = None).
  { apply Hzero; [vm_compute; reflexivity | simpl; set_solver]. }
  vm_compute in Hinit. discriminate.
Qed.

Lemma arity_is_the_arity_of_init_witness :
  arity Native declared_arity class_B = 0
  /\ arity Native declared_arity class_B = arity Native declared_arity class_A.
Proof.
  split.
  - apply (proj1 (arity_is_the_arity_of_init Native declared_arity class_B)
             (Declared (Function (tok "init" 2) [] []))).
    vm_compute. reflexivity.
  - apply (proj1 (proj2 (arity_is_the_arity_of_init Native declared_arity class_B)) class_A).
    + vm_compute. reflexivity.
    + reflexivity.
Defined.

(** ** C8: operand order *)

Lemma Expr_nested_ind (P : Expr -> Prop) :
  (forall name value, P value -> P (AssignExpr name value)) ->
  (forall l r, P l -> P r -> P (BinaryExpr l r)) ->
  (forall callee args, P callee -> Forall P args -> P (CallExpr callee args)) ->
  (forall object, P object -> P (GetExpr object)) ->
  (forall expression, P expression -> P (GroupingExpr expression)) ->
  P LiteralExpr ->
  (forall l r, P l -> P r -> P (LogicalExpr l r)) ->
  (forall object value, P object -> P value -> P (SetExpr object value)) ->
  (forall keyword, P (SuperExpr keyword)) ->
  (forall keyword, P (ThisExpr keyword)) ->
  (forall r, P r -> P (UnaryExpr r)) ->
  (forall name, P (VariableExpr name)) ->
  forall e, P e.
Proof.
  intros HAssign HBinary HCall HGet HGrouping HLiteral HLogical HSet HSuper HThis
         HUnary HVariable.
  fix IH 1. intros [name value | l r | callee args | object | expression |
                    | l r | object value | keyword | keyword | r | name].
  - apply HAssign, IH.
  - apply HBinary; apply IH.
  - apply HCall; [apply IH|].
    induction args as [|a args IHargs]; constructor; [apply IH | exact IHargs].
  - apply HGet, IH.
  - apply HGrouping, IH.
  - apply HLiteral.
  - apply HLogical; apply IH.
  - apply HSet; apply IH.
  - apply HSuper.
  - apply HThis.
  - apply HUnary, IH.
  - apply HVariable.
Qed.

Lemma appends_logs_skip : appends_logs skip.
Proof. intros s cf cc rep loc. unfold skip. simpl. by rewrite !app_nil_r. Qed.

Lemma appends_logs_and_then a b :
  appends_logs a -> appends_logs b -> appends_logs (a >>> b).
Proof.
  intros Ha Hb s cf cc rep loc. unfold and_then.
  pose proof (Ha s cf cc [] []) as Ha0. pose proof (Ha s cf cc rep loc) as Ha1.
  destruct (a (mkResolver s cf cc [] [])) as [s0 cf0 cc0 A A'] eqn:E0.
  simpl in Ha0, Ha1. injection Ha0 as -> -> ->.
  rewrite Ha1, (Hb s cf cc (rep ++ A) (loc ++ A')), (Hb s cf cc A A'). simpl.
  by rewrite !app_assoc.
Qed.

Lemma appends_logs_for_each {A} (f : A -> Resolver -> Resolver) (xs : list A) :
  Forall (fun x => appends_logs (f x)) xs -> appends_logs (for_each f xs).
Proof.
  induction 1 as [|x xs Hx _ IH].
  - apply appends_logs_skip.
  - change (for_each f (x :: xs)) with (f x >>> for_each f xs).
    by apply appends_logs_and_then.
Qed.

Lemma appends_logs_report msg ln : appends_logs (report msg ln).
Proof. intros s cf cc rep loc. unfold report. simpl. by rewrite app_nil_r. Qed.

Lemma appends_logs_resolveLocal expr name : appends_logs (resolveLocal expr name).
Proof.
  intros s cf cc rep loc. unfold resolveLocal. simpl.
  rewrite (resolveLocal_loop_logs _ _ _ _ _ _ rep loc).
  destruct (resolveLocal_frame expr name (mkResolver s cf cc [] [])) as (_ & _ & _ & Hrep).
  unfold resolveLocal in Hrep. simpl in Hrep. rewrite Hrep. by rewrite app_nil_r.
Qed.

Lemma appends_logs_visitSuperExpr keyword : appends_logs (visitSuperExpr keyword).
Proof.
  apply appends_logs_and_then; [|apply appends_logs_resolveLocal].
  intros s cf cc rep loc. destruct cc; simpl; by rewrite !app_nil_r.
Qed.

Lemma appends_logs_visitThisExpr keyword : appends_logs (visitThisExpr keyword).
Proof.
  intros s cf cc rep loc. unfold visitThisExpr.
  destruct cc; cbn [currentClass];
    [apply appends_logs_report | apply appends_logs_resolveLocal..].
Qed.

Lemma appends_logs_visitVariableExpr name : appends_logs (visitVariableExpr name).
Proof.
  apply appends_logs_and_then; [|apply appends_logs_resolveLocal].
  intros s cf cc rep loc. cbn [scopes].
  destruct (negb (isEmpty s) && from_option (is_false (lexeme name)) false (peek s));
    [apply appends_logs_report | apply appends_logs_skip].
Qed.

Lemma appends_logs_resolveExpr e : appends_logs (resolveExpr e).
Proof.
  induction e using Expr_nested_ind; cbn [resolveExpr].
  - apply appends_logs_and_then; [done | apply appends_logs_resolveLocal].
  - by apply appends_logs_and_then.
  - apply appends_logs_and_then; [done | by apply appends_logs_for_each].
  - done.
  - done.
  - apply appends_logs_skip.
  - by apply appends_logs_and_then.
  - by apply appends_logs_and_then.
  - apply appends_logs_visitSuperExpr.
  - apply appends_logs_visitThisExpr.
  - done.
  - apply appends_logs_visitVariableExpr.
Qed.

Lemma resolveExpr_logs e r :
  resolveExpr e r
  = mkResolver (scopes r) (currentFunction r) (currentClass r)
               (reported r ++ diagnostics_of e r) (locals r ++ depths_of e r).
Proof. destruct r as [s cf cc rep loc]. apply appends_logs_resolveExpr. Qed.

Lemma fresh_logs_resolveExpr e r : fresh_logs (resolveExpr e r) = fresh_logs r.
Proof. by rewrite (resolveExpr_logs e r). Qed.

(** C8.  Resolving a logical expression emits what its right operand emits
    and then what its left operand emits; resolving a binary expression
    emits the left operand's output and then the right operand's.  This
    holds for the diagnostics and for the depth-table entries, and the two
    orders can be told apart in either log: [a and b] against [a + b] inside
    a scope that declares both variables, and [this and super.m] against
    [this + super.m] outside any class. *)
Theorem logical_resolves_right_operand_first :
  (forall (l r : Expr) (st : Resolver),
      reported (resolveExpr (LogicalExpr l r) st)
      = reported st ++ diagnostics_of r st ++ diagnostics_of l st
      /\ locals (resolveExpr (LogicalExpr l r) st)
         = locals st ++ depths_of r st ++ depths_of l st
      /\ reported (resolveExpr (BinaryExpr l r) st)
         = reported st ++ diagnostics_of l st ++ diagnostics_of r st
      /\ locals (resolveExpr (BinaryExpr l r) st)
         = locals st ++ depths_of l st ++ depths_of r st)
  /\ locals (resolveExpr (LogicalExpr (VariableExpr (tok "a" 1)) (VariableExpr (tok "b" 1)))
               scope_a_b)
     = [(VariableExpr (tok "b" 1), 0); (VariableExpr (tok "a" 1), 0)]
  /\ locals (resolveExpr (BinaryExpr (VariableExpr (tok "a" 1)) (VariableExpr (tok "b" 1)))
               scope_a_b)
     = [(VariableExpr (tok "a" 1), 0); (VariableExpr (tok "b" 1), 0)]
  /\ reported (resolveExpr (LogicalExpr (ThisExpr (tok "this" 1)) (SuperExpr (tok "super" 2)))
                 scope_a_b)
     = [mkResolvingError "Can't use 'super' outside of class" 2;
        mkResolvingError "Can't use 'this' outside of a class" 1]
  /\ reported (resolveExpr (BinaryExpr (ThisExpr (tok "this" 1)) (SuperExpr (tok "super" 2)))
                 scope_a_b)
     = [mkResolvingError "Can't use 'this' outside of a class" 1;
        mkResolvingError "Can't use 'super' outside of class" 2].
Proof.
  split; [|repeat split; vm_compute; reflexivity].
  intros l r st. cbn [resolveExpr]. unfold and_then.
  rewrite (resolveExpr_logs l (resolveExpr r st)), (resolveExpr_logs r (resolveExpr l st)).
  unfold diagnostics_of, depths_of. rewrite !fresh_logs_resolveExpr.
  rewrite (resolveExpr_logs r st), (resolveExpr_logs l st). cbn [reported locals].
  unfold diagnostics_of, depths_of. by rewrite <- !app_assoc.
Qed.

(** ** Scope-stack height, away from self-inheriting classes *)

Lemma Stmt_nested_ind (P : Stmt -> Prop) (Q : FunctionStmt -> Prop) :
  (forall statements, Forall P statements -> P (BlockStmt statements)) ->
  (forall name superclass methods, Forall Q methods -> P (ClassStmt name superclass methods)) ->
  (forall expression, P (ExpressionStmt expression)) ->
  (forall func, Q func -> P (FunctionDecl func)) ->
  (forall condition thenBranch, P thenBranch -> P (IfStmt condition thenBranch None)) ->
  (forall condition thenBranch elseBranch,
      P thenBranch -> P elseBranch -> P (IfStmt condition thenBranch (Some elseBranch))) ->
  (forall expression, P (PrintStmt expression)) ->
  (forall keyword value, P (ReturnStmt keyword value)) ->
  (forall name initializer, P (VarStmt name initializer)) ->
  (forall condition body, P body -> P (WhileStmt condition body)) ->
  (forall name params body, Forall P body -> Q (Function name params body)) ->
  forall s, P s.
Proof.
  intros HBlock HClass HExpression HFunction HIf HIfElse HPrint HReturn HVar HWhile HQ.
  fix IHs 1 with (IHf (func : FunctionStmt) {struct func} : Q func).
  - intros [statements | name superclass methods | expression | func
           | condition thenBranch [elseBranch|] | expression | keyword value
           | name initializer | condition body].
    + apply HBlock.
      induction statements as [|s statements IH]; constructor; [apply IHs | exact IH].
    + apply HClass.
      induction methods as [|m methods IH]; constructor; [apply IHf | exact IH].
    + apply HExpression.
    + apply HFunction, IHf.
    + apply HIfElse; apply IHs.
    + apply HIf, IHs.
    + apply HPrint.
    + apply HReturn.
    + apply HVar.
    + apply HWhile, IHs.
  - intros [name params body]. apply HQ.
    induction body as [|s body IH]; constructor; [apply IHs | exact IH].
Qed.

Lemma length_removelast {A} (l : list A) : length (removelast l) = length l - 1.
Proof.
  destruct l as [|x l] using rev_ind; [done|].
  rewrite removelast_last, length_app. simpl. lia.
Qed.

Lemma height_beginScope r : length (scopes (beginScope r)) = S (length (scopes r)).
Proof. unfold beginScope. simpl. rewrite length_app. simpl. lia. Qed.

Lemma height_endScope r : length (scopes (endScope r)) = length (scopes r) - 1.
Proof. unfold endScope. simpl. apply length_removelast. Qed.

Lemma keeps_height_skip : keeps_height skip.
Proof. by intros r. Qed.

Lemma keeps_height_and_then a b :
  keeps_height a -> keeps_height b -> keeps_height (a >>> b).
Proof. intros Ha Hb r. unfold and_then. by rewrite Hb, Ha. Qed.

Lemma keeps_height_for_each {A} (f : A -> Resolver -> Resolver) (xs : list A) :
  Forall (fun x => keeps_height (f x)) xs -> keeps_height (for_each f xs).
Proof.
  induction 1 as [|x xs Hx _ IH]; [apply keeps_height_skip|].
  change (for_each f (x :: xs)) with (f x >>> for_each f xs).
  by apply keeps_height_and_then.
Qed.

Lemma keeps_height_scoped a :
  keeps_height a -> keeps_height (beginScope >>> a >>> endScope).
Proof.
  intros Ha r. unfold and_then.
  rewrite height_endScope, Ha, height_beginScope. lia.
Qed.

Lemma keeps_height_assign_peek k v : keeps_height (assign_peek k v).
Proof. intros r. unfold assign_peek. simpl. apply length_alter. Qed.

Lemma keeps_height_report msg ln : keeps_height (report msg ln).
Proof. by intros r. Qed.

Lemma keeps_height_declare name : keeps_height (declare name).
Proof.
  intros r. unfold declare.
  destruct (isEmpty (scopes r)); [done|].
  destruct (peek (scopes r)) as [scope|]; [|done].
  destruct (has_property (lexeme name) scope);
    unfold and_then; by rewrite keeps_height_assign_peek.
Qed.

Lemma keeps_height_define name : keeps_height (define name).
Proof.
  intros r. unfold define.
  destruct (isEmpty (scopes r)); [done | apply keeps_height_assign_peek].
Qed.

Lemma keeps_height_resolveExpr e : keeps_height (resolveExpr e).
Proof. intros r. by rewrite resolveExpr_logs. Qed.

Lemma keeps_height_visitVarStmt name initializer : keeps_height (visitVarStmt name initializer).
Proof.
  unfold visitVarStmt.
  apply keeps_height_and_then; [apply keeps_height_and_then|].
  - apply keeps_height_declare.
  - destruct initializer; [apply keeps_height_resolveExpr | apply keeps_height_skip].
  - apply keeps_height_define.
Qed.

Lemma keeps_height_visitReturnStmt keyword value : keeps_height (visitReturnStmt keyword value).
Proof.
  intros r. unfold visitReturnStmt, and_then.
  destruct value as [v|]; [rewrite keeps_height_resolveExpr | unfold skip];
    destruct r as [s [] cc rep loc]; done.
Qed.

Lemma keeps_height_params (params : list Token) :
  keeps_height (for_each (fun param => declare param >>> define param) params).
Proof.
  apply keeps_height_for_each, Forall_forall. intros param _.
  apply keeps_height_and_then; [apply keeps_height_declare | apply keeps_height_define].
Qed.

(** Outside the self-inheritance branch every statement, and every function
    body under any function kind, leaves the scope stack at its prior
    height. *)
Lemma resolveStmt_keeps_height s :
  self_inheritance_free s = true -> keeps_height (resolveStmt s).
Proof.
  induction s
    as [ statements IH | name super meths IH | expression | func IH
       | condition thenBranch IHthen | condition thenBranch elseBranch IHthen IHelse
       | expression | keyword value | name initializer | condition body IH
       | name params body IH ]
    using Stmt_nested_ind
    with (Q := fun func => function_self_inheritance_free func = true ->
                           forall type, keeps_height (resolveFunction func type));
    cbn [resolveStmt resolveFunction self_inheritance_free function_self_inheritance_free].
  - (* block *)
    intros Hfree. apply keeps_height_scoped, keeps_height_for_each.
    rewrite forallb_forall in Hfree. rewrite Forall_forall in *.
    intros s Hs. apply IH; [done|]. apply Hfree. by apply list_elem_of_In.
  - (* class *)
    intros Hfree r. apply andb_true_iff in Hfree as [Hsuper Hmethods].
    assert (Hm : keeps_height
                   (for_each (fun method => resolveFunction method (method_type method))
                             meths)).
    { apply keeps_height_for_each. rewrite forallb_forall in Hmethods.
      rewrite Forall_forall in *. intros m Hm. apply IH; [done|].
      apply Hmethods. by apply list_elem_of_In. }
    unfold and_then. cbn [set_currentClass scopes].
    destruct super as [super|].
    + apply negb_true_iff in Hsuper. rewrite Hsuper.
      rewrite !height_endScope, Hm, keeps_height_assign_peek, height_beginScope,
        keeps_height_assign_peek, height_beginScope.
      change (visitVariableExpr super) with (resolveExpr (VariableExpr super)).
      rewrite keeps_height_resolveExpr.
      cbn [set_currentClass scopes].
      rewrite keeps_height_define, keeps_height_declare. cbn [set_currentClass scopes]. lia.
    + unfold skip.
      rewrite height_endScope, Hm, keeps_height_assign_peek, height_beginScope.
      rewrite keeps_height_define, keeps_height_declare. cbn [set_currentClass scopes]. lia.
  - intros _. apply keeps_height_resolveExpr.
  - (* function declaration *)
    intros Hfree.
    apply keeps_height_and_then; [apply keeps_height_and_then|];
      [apply keeps_height_declare | apply keeps_height_define | by apply IH].
  - intros Hfree. rewrite andb_true_r in Hfree.
    apply keeps_height_and_then; [apply keeps_height_and_then|];
      [apply keeps_height_resolveExpr | by apply IHthen | apply keeps_height_skip].
  - intros [H1 H2]%andb_true_iff.
    apply keeps_height_and_then; [apply keeps_height_and_then|];
      [apply keeps_height_resolveExpr | by apply IHthen | by apply IHelse].
  - intros _. apply keeps_height_resolveExpr.
  - intros _. apply keeps_height_visitReturnStmt.
  - intros _. apply keeps_height_visitVarStmt.
  - intros Hfree.
    apply keeps_height_and_then; [apply keeps_height_resolveExpr | by apply IH].
  - (* function body *)
    intros Hfree type r.
    assert (Hbody : keeps_height (for_each resolveStmt body)).
    { apply keeps_height_for_each. rewrite forallb_forall in Hfree.
      rewrite Forall_forall in *. intros s Hs. apply IH; [done|].
      apply Hfree. by apply list_elem_of_In. }
    unfold and_then. cbn [set_currentFunction scopes].
    rewrite height_endScope, Hbody, keeps_height_params, height_beginScope.
    cbn [set_currentFunction scopes]. lia.
Qed.


(** * Further properties of the Resolver *)

(** ** What expressions emit *)

Lemma appends_logs_emits a b s cf cc :
  appends_logs a -> appends_logs b ->
  reported ((a >>> b) (mkResolver s cf cc [] []))
  = reported (a (mkResolver s cf cc [] [])) ++ reported (b (mkResolver s cf cc [] []))
  /\ locals ((a >>> b) (mkResolver s cf cc [] []))
     = locals (a (mkResolver s cf cc [] [])) ++ locals (b (mkResolver s cf cc [] [])).
Proof.
  intros Ha Hb. unfold and_then.
  pose proof (Ha s cf cc [] []) as Ha0.
  destruct (a (mkResolver s cf cc [] [])) as [s0 cf0 cc0 A A'] eqn:E0.
  simpl in Ha0. injection Ha0 as -> -> ->.
  by rewrite (Hb s cf cc A A').
Qed.

Lemma appends_logs_for_each_emits {A} (f : A -> Resolver -> Resolver) xs s cf cc :
  Forall (fun x => appends_logs (f x)) xs ->
  reported (for_each f xs (mkResolver s cf cc [] []))
  = concat (map (fun x => reported (f x (mkResolver s cf cc [] []))) xs)
  /\ locals (for_each f xs (mkResolver s cf cc [] []))
     = concat (map (fun x => locals (f x (mkResolver s cf cc [] []))) xs).
Proof.
  induction 1 as [|x xs Hx Hxs IH]; [done|].
  change (for_each f (x :: xs)) with (f x >>> for_each f xs).
  destruct (appends_logs_emits (f x) (for_each f xs) s cf cc Hx) as [-> ->].
  { by apply appends_logs_for_each. }
  destruct IH as [-> ->]. done.
Qed.

(** X7.  In a call the callee's output comes first, then each argument's, left
    to right; in a property assignment the value's output precedes the
    object's; an assignment emits the value's output and then its own depth
    entry, and no diagnostic of its own. *)
Theorem expression_emission_order (r : Resolver) :
  (forall callee args,
      diagnostics_of (CallExpr callee args) r
      = diagnostics_of callee r ++ concat (map (fun a => diagnostics_of a r) args)
      /\ depths_of (CallExpr callee args) r
         = depths_of callee r ++ concat (map (fun a => depths_of a r) args))
  /\ (forall object value,
         diagnostics_of (SetExpr object value) r
         = diagnostics_of value r ++ diagnostics_of object r
         /\ depths_of (SetExpr object value) r
            = depths_of value r ++ depths_of object r)
  /\ (forall name value,
         diagnostics_of (AssignExpr name value) r = diagnostics_of value r
         /\ depths_of (AssignExpr name value) r
            = depths_of value r
              ++ locals (resolveLocal (AssignExpr name value) name (fresh_logs r))).
Proof.
  unfold diagnostics_of, depths_of, fresh_logs.
  split; [|split].
  - intros callee args. cbn [resolveExpr].
    destruct (appends_logs_emits (resolveExpr callee) (for_each resolveExpr args)
                (scopes r) (currentFunction r) (currentClass r)) as [-> ->].
    { apply appends_logs_resolveExpr. }
    { apply appends_logs_for_each, Forall_forall. intros. apply appends_logs_resolveExpr. }
    destruct (appends_logs_for_each_emits resolveExpr args
                (scopes r) (currentFunction r) (currentClass r)) as [-> ->]; [|done].
    apply Forall_forall. intros. apply appends_logs_resolveExpr.
  - intros object value. cbn [resolveExpr].
    by destruct (appends_logs_emits (resolveExpr value) (resolveExpr object)
                   (scopes r) (currentFunction r) (currentClass r)
                   (appends_logs_resolveExpr _) (appends_logs_resolveExpr _)) as [-> ->].
  - intros name value. cbn [resolveExpr].
    destruct (appends_logs_emits (resolveExpr value)
                (resolveLocal (AssignExpr name value) name)
                (scopes r) (currentFunction r) (currentClass r)
                (appends_logs_resolveExpr _) (appends_logs_resolveLocal _ _)) as [-> ->].
    split; [|done].
    destruct (resolveLocal_frame (AssignExpr name value) name
                (mkResolver (scopes r) (currentFunction r) (currentClass r) [] []))
      as (_ & _ & _ & ->).
    simpl. by rewrite app_nil_r.
Qed.

(** ** Depths are in range and belong to resolvable nodes *)

Lemma resolveLocal_entry expr name r :
  Forall (fun entry => entry.1 = expr /\ entry.2 < length (scopes r))
         (locals (resolveLocal expr name (fresh_logs r))).
Proof.
  unfold resolveLocal.
  destruct (resolveLocal_loop_cases (length (scopes (fresh_logs r))) expr name (fresh_logs r))
    as [-> | (i & Hi & ->)]; simpl.
  - constructor.
  - simpl in Hi. repeat constructor; simpl. lia.
Qed.

Lemma depths_of_in_range e r :
  Forall (fun entry => resolvable_node entry.1 = true /\ entry.2 < length (scopes r))
         (depths_of e r).
Proof.
  unfold depths_of, fresh_logs.
  induction e as [ name value IH | l rt IHl IHr | callee args IHc IHargs | object IH
                 | expression IH | | l rt IHl IHr | object value IHo IHv | keyword
                 | keyword | rt IH | name ] using Expr_nested_ind;
    cbn [resolveExpr].
  - destruct (appends_logs_emits (resolveExpr value)
                (resolveLocal (AssignExpr name value) name)
                (scopes r) (currentFunction r) (currentClass r)
                (appends_logs_resolveExpr _) (appends_logs_resolveLocal _ _)) as [_ ->].
    apply Forall_app. split; [done|].
    eapply Forall_impl; [apply (resolveLocal_entry (AssignExpr name value) name r)|].
    intros [node d] [-> ?]. done.
  - destruct (appends_logs_emits (resolveExpr l) (resolveExpr rt)
                (scopes r) (currentFunction r) (currentClass r)
                (appends_logs_resolveExpr _) (appends_logs_resolveExpr _)) as [_ ->].
    by apply Forall_app.
  - destruct (appends_logs_emits (resolveExpr callee) (for_each resolveExpr args)
                (scopes r) (currentFunction r) (currentClass r)) as [_ ->].
    { apply appends_logs_resolveExpr. }
    { apply appends_logs_for_each, Forall_forall. intros. apply appends_logs_resolveExpr. }
    apply Forall_app. split; [done|].
    destruct (appends_logs_for_each_emits resolveExpr args
                (scopes r) (currentFunction r) (currentClass r)) as [_ ->].
    { apply Forall_forall. intros. apply appends_logs_resolveExpr. }
    induction IHargs as [|a args Ha _ IH]; simpl; [constructor|].
    by apply Forall_app.
  - done.
  - done.
  - constructor.
  - destruct (appends_logs_emits (resolveExpr rt) (resolveExpr l)
                (scopes r) (currentFunction r) (currentClass r)
                (appends_logs_resolveExpr _) (appends_logs_resolveExpr _)) as [_ ->].
    by apply Forall_app.
  - destruct (appends_logs_emits (resolveExpr value) (resolveExpr object)
                (scopes r) (currentFunction r) (currentClass r)
                (appends_logs_resolveExpr _) (appends_logs_resolveExpr _)) as [_ ->].
    by apply Forall_app.
  - pose proof (resolveLocal_entry (SuperExpr keyword) keyword r) as Hentry.
    unfold fresh_logs in Hentry. revert Hentry.
    unfold visitSuperExpr, and_then. cbn [currentClass].
    destruct (currentClass r); intros Hentry;
      rewrite ?resolveLocal_report; cbn [report locals];
      (eapply Forall_impl; [exact Hentry|]; intros [node d] [-> ?]; done).
  - pose proof (resolveLocal_entry (ThisExpr keyword) keyword r) as Hentry.
    unfold fresh_logs in Hentry. revert Hentry.
    unfold visitThisExpr. cbn [currentClass].
    destruct (currentClass r); intros Hentry; [constructor | |];
      (eapply Forall_impl; [exact Hentry|]; intros [node d] [-> ?]; done).
  - done.
  - unfold visitVariableExpr, and_then. cbn [scopes].
    destruct (negb (isEmpty (scopes r))
              && from_option (is_false (lexeme name)) false (peek (scopes r)));
      rewrite ?resolveLocal_report; cbn [report locals];
      (eapply Forall_impl; [apply (resolveLocal_entry (VariableExpr name) name r)|];
       intros [node d] [-> ?]; done).
Qed.

(** X6.  Resolving an expression leaves the scope stack and both kinds
    untouched and keeps everything logged before; every depth it records
    belongs to a variable, assignment, [this] or [super] node and is smaller
    than the number of scopes on the stack. *)
Theorem expressions_only_append_in_range_depths (e : Expr) (r : Resolver) :
  scopes (resolveExpr e r) = scopes r
  /\ currentFunction (resolveExpr e r) = currentFunction r
  /\ currentClass (resolveExpr e r) = currentClass r
  /\ reported (resolveExpr e r) = reported r ++ diagnostics_of e r
  /\ locals (resolveExpr e r) = locals r ++ depths_of e r
  /\ Forall (fun entry => resolvable_node entry.1 = true /\ entry.2 < length (scopes r))
            (depths_of e r).
Proof.
  rewrite (resolveExpr_logs e r). cbn [scopes currentFunction currentClass reported locals].
  repeat split. apply depths_of_in_range.
Qed.

(** ** Top level *)

Lemma depths_of_top_level e r : scopes r = [] -> depths_of e r = [].
Proof.
  intros Hnil. pose proof (depths_of_in_range e r) as Hrange.
  rewrite Hnil in Hrange. destruct (depths_of e r) as [|entry rest]; [done|].
  apply Forall_cons in Hrange as [[_ Hlt] _]. simpl in Hlt. lia.
Qed.

(** X8.  With an empty scope stack (top-level code) nothing is tracked: no
    expression records a depth, and a var statement has exactly the effect
    of resolving its initializer (none at all without one). *)
Theorem top_level_names_are_untracked (r : Resolver) :
  scopes r = [] ->
  (forall e, locals (resolveExpr e r) = locals r)
  /\ (forall name initializer,
         resolveStmt (VarStmt name (Some initializer)) r = resolveExpr initializer r)
  /\ (forall name, resolveStmt (VarStmt name None) r = r).
Proof.
  intros Hnil. split; [|split].
  - intros e. rewrite (resolveExpr_logs e r). simpl.
    by rewrite depths_of_top_level, app_nil_r.
  - intros name initializer. cbn [resolveStmt]. unfold visitVarStmt, and_then.
    rewrite (declare_top_level name r Hnil).
    unfold define. by rewrite (resolveExpr_logs initializer r); simpl; rewrite Hnil.
  - intros name. cbn [resolveStmt]. unfold visitVarStmt, and_then, skip.
    rewrite (declare_top_level name r Hnil). unfold define. by rewrite Hnil.
Qed.

Lemma top_level_names_are_untracked_witness :
  locals (resolveExpr (AssignExpr (tok "a" 1) (VariableExpr (tok "b" 1))) initial) = []
  /\ resolveStmt (VarStmt (tok "a" 1) None) initial = initial.
Proof.
  split.
  - apply (proj1 (top_level_names_are_untracked initial eq_refl)).
  - apply (proj2 (proj2 (top_level_names_are_untracked initial eq_refl))).
Defined.

(** ** Entering a scope *)

Lemma resolveLocal_loop_beginScope expr name r k :
  inherited (lexeme name) = false ->
  k <= length (scopes r) ->
  (resolveLocal_loop k expr name r = r
   /\ resolveLocal_loop k expr name (beginScope r) = beginScope r)
  \/ exists d,
      resolveLocal_loop k expr name r = interpreter_resolve expr d r
      /\ resolveLocal_loop k expr name (beginScope r)
         = interpreter_resolve expr (S d) (beginScope r).
Proof.
  intros Hname. induction k as [|k IH]; intros Hk; [by left|].
  cbn [resolveLocal_loop]. cbn [beginScope set_scopes scopes].
  rewrite lookup_app_l by lia.
  destruct (scopes r !! k) as [scope|] eqn:Hlookup; [|apply IH; lia].
  destruct (has_property (lexeme name) scope); [|apply IH; lia].
  right. exists (length (scopes r) - 1 - k). split; [done|].
  rewrite length_app. simpl. do 2 f_equal. lia.
Qed.

(** X9.  Entering a scope moves every binding one level out.  For a name that
    [Object.prototype] does not define, a lookup that recorded depth [d]
    records [d + 1] once a new scope has begun, and a lookup that found
    nothing still finds nothing. *)
Theorem beginScope_shifts_depth (expr : Expr) (name : Token) (r : Resolver) :
  inherited (lexeme name) = false ->
  (resolveLocal expr name r = r ->
   resolveLocal expr name (beginScope r) = beginScope r)
  /\ (forall d, resolveLocal expr name r = interpreter_resolve expr d r ->
                resolveLocal expr name (beginScope r)
                = interpreter_resolve expr (S d) (beginScope r)).
Proof.
  intros Hname.
  assert (Hdiff : forall d, interpreter_resolve expr d r <> r).
  { intros d H. apply (f_equal (fun x => length (locals x))) in H.
    simpl in H. rewrite length_app in H. simpl in H. lia. }
  assert (Htop : resolveLocal expr name (beginScope r)
                 = resolveLocal_loop (length (scopes r)) expr name (beginScope r)).
  { unfold resolveLocal.
    assert (Hlen : length (scopes (beginScope r)) = S (length (scopes r))).
    { cbn [beginScope set_scopes scopes]. rewrite length_app. simpl. lia. }
    rewrite Hlen. cbn [resolveLocal_loop].
    assert (Hlast : scopes (beginScope r) !! length (scopes r) = Some ∅).
    { cbn [beginScope set_scopes scopes]. rewrite lookup_app_r by lia.
      by rewrite Nat.sub_diag. }
    by rewrite Hlast, has_property_empty, Hname. }
  rewrite Htop. unfold resolveLocal.
  destruct (resolveLocal_loop_beginScope expr name r (length (scopes r)) Hname)
    as [[Hr Hb] | (d & Hr & Hb)]; [lia| |].
  - split; [done|]. intros d Hd. rewrite Hr in Hd. by destruct (Hdiff d).
  - split.
    + intros H. rewrite Hr in H. by destruct (Hdiff d).
    + intros d' Hd'. rewrite Hr in Hd'.
      apply (f_equal locals) in Hd'. simpl in Hd'.
      apply app_inv_head in Hd'. injection Hd' as ->. done.
Qed.

Lemma beginScope_shifts_depth_witness :
  resolveLocal (VariableExpr (tok "b" 9)) (tok "b" 9) (beginScope three_scopes)
  = interpreter_resolve (VariableExpr (tok "b" 9)) 2 (beginScope three_scopes).
Proof.
  apply (proj2 (beginScope_shifts_depth (VariableExpr (tok "b" 9)) (tok "b" 9)
                  three_scopes eq_refl) 1).
  vm_compute. reflexivity.
Defined.

(** ** Declared, then read *)

Lemma scopes_define name r :
  scopes (define name r)
  = alter (set_property (lexeme name) true) (length (scopes r) - 1) (scopes r).
Proof.
  unfold define. destruct (isEmpty (scopes r)) eqn:E; [|done].
  apply isEmpty_nil in E. by rewrite E.
Qed.

Lemma scopes_declare name r :
  scopes (declare name r)
  = alter (set_property (lexeme name) false) (length (scopes r) - 1) (scopes r).
Proof.
  destruct (last (scopes r)) as [scope|] eqn:Hlast.
  - by rewrite (declare_in_scope name r scope Hlast).
  - apply last_None in Hlast. rewrite declare_top_level by done. by rewrite Hlast.
Qed.

Lemma set_property_lookup k v (scope : Scope) :
  k <> "__proto__" -> set_property k v scope !! k = Some v.
Proof.
  intros Hk. unfold set_property.
  destruct (String.eqb k "__proto__") eqn:E; [by apply String.eqb_eq in E|].
  apply lookup_insert_eq.
Qed.

Lemma set_property_lookup_ne k k' v (scope : Scope) :
  k <> k' -> set_property k v scope !! k' = scope !! k'.
Proof.
  intros Hk. unfold set_property.
  destruct (String.eqb k "__proto__"); [done|]. by apply lookup_insert_ne.
Qed.

Lemma visitVarStmt_scopes name initializer r :
  scopes (visitVarStmt name initializer r)
  = alter (fun scope => set_property (lexeme name) true
                          (set_property (lexeme name) false scope))
          (length (scopes r) - 1) (scopes r).
Proof.
  unfold visitVarStmt, and_then. rewrite scopes_define.
  assert (Hinit : scopes (match initializer with
                          | Some i => resolveExpr i
                          | None => skip
                          end (declare name r)) = scopes (declare name r)).
  { destruct initializer as [i|]; [by rewrite resolveExpr_logs | done]. }
  rewrite Hinit, scopes_declare, length_alter.
  by rewrite list_alter_alter_eq.
Qed.

Lemma variable_defined_in_innermost use r scope :
  last (scopes r) = Some scope ->
  scope !! lexeme use = Some true ->
  resolveExpr (VariableExpr use) r = interpreter_resolve (VariableExpr use) 0 r.
Proof.
  intros Hlast Htrue. cbn [resolveExpr]. unfold visitVariableExpr, and_then, peek.
  rewrite Hlast. simpl. unfold is_false. rewrite Htrue.
  rewrite bool_decide_eq_false_2 by done. rewrite andb_false_r.
  assert (Hlen : 0 < length (scopes r)).
  { destruct (scopes r); [done | simpl; lia]. }
  unfold resolveLocal.
  rewrite (resolveLocal_loop_found _ _ _ _ (length (scopes r) - 1) scope).
  - f_equal. lia.
  - lia.
  - rewrite last_lookup in Hlast. by replace (length (scopes r) - 1) with (pred (length (scopes r))) by lia.
  - unfold has_property. rewrite Htrue. apply orb_true_iff. left.
    apply bool_decide_eq_true. by eexists.
  - intros j scope' ? ? ?. lia.
Qed.

(** X10.  Once a var statement has run inside a scope, a read of that name in
    the same scope reports nothing and records depth 0, whether or not the
    statement had an initializer and whatever the scope held before.
    ([__proto__] is excluded: a scope object ignores assignments to it.) *)
Theorem declared_variable_resolves_at_depth_zero
    (name use : Token) (initializer : option Expr) (r : Resolver) (scope : Scope) :
  last (scopes r) = Some scope ->
  lexeme name <> "__proto__" ->
  lexeme use = lexeme name ->
  resolveExpr (VariableExpr use) (resolveStmt (VarStmt name initializer) r)
  = interpreter_resolve (VariableExpr use) 0 (resolveStmt (VarStmt name initializer) r).
Proof.
  intros Hlast Hname Huse. cbn [resolveStmt].
  apply (variable_defined_in_innermost use _
           (set_property (lexeme name) true (set_property (lexeme name) false scope))).
  - by rewrite visitVarStmt_scopes, last_alter_last, Hlast.
  - rewrite Huse. by apply set_property_lookup.
Qed.

Lemma declared_variable_resolves_at_depth_zero_witness :
  resolveExpr (VariableExpr (tok "c" 3))
    (resolveStmt (VarStmt (tok "c" 2) (Some LiteralExpr)) three_scopes)
  = interpreter_resolve (VariableExpr (tok "c" 3)) 0
      (resolveStmt (VarStmt (tok "c" 2) (Some LiteralExpr)) three_scopes).
Proof.
  apply (declared_variable_resolves_at_depth_zero
           (tok "c" 2) (tok "c" 3) (Some LiteralExpr) three_scopes ∅).
  - reflexivity.
  - discriminate.
  - reflexivity.
Defined.


(** ** Statements restore the kinds *)

Ltac split_steps lemma :=
  repeat lazymatch goal with
         | |- _ (_ >>> _) => apply lemma
         end.

Lemma preserves_skip {A} (proj : Resolver -> A) : preserves proj skip.
Proof. by intros r. Qed.

Lemma preserves_and_then {A} (proj : Resolver -> A) a b :
  preserves proj a -> preserves proj b -> preserves proj (a >>> b).
Proof. intros Ha Hb r. unfold and_then. by rewrite Hb, Ha. Qed.

Lemma preserves_for_each {A B} (proj : Resolver -> A) (f : B -> Resolver -> Resolver) xs :
  Forall (fun x => preserves proj (f x)) xs -> preserves proj (for_each f xs).
Proof.
  induction 1 as [|x xs Hx _ IH]; [apply preserves_skip|].
  change (for_each f (x :: xs)) with (f x >>> for_each f xs).
  by apply preserves_and_then.
Qed.

Lemma preserves_kinds_function a : preserves kinds a -> preserves currentFunction a.
Proof. intros Ha r. by injection (Ha r). Qed.

Lemma preserves_kinds_class a : preserves kinds a -> preserves currentClass a.
Proof. intros Ha r. by injection (Ha r). Qed.

Lemma kinds_declare name : preserves kinds (declare name).
Proof.
  intros r. unfold declare. destruct (isEmpty (scopes r)); [done|].
  destruct (peek (scopes r)) as [scope|]; [|done].
  by destruct (has_property (lexeme name) scope).
Qed.

Lemma kinds_define name : preserves kinds (define name).
Proof. intros r. unfold define. by destruct (isEmpty (scopes r)). Qed.

Lemma kinds_resolveExpr e : preserves kinds (resolveExpr e).
Proof. intros r. by rewrite resolveExpr_logs. Qed.

Lemma kinds_visitVariableExpr name : preserves kinds (visitVariableExpr name).
Proof. apply (kinds_resolveExpr (VariableExpr name)). Qed.

Lemma kinds_visitVarStmt name initializer : preserves kinds (visitVarStmt name initializer).
Proof.
  unfold visitVarStmt. split_steps (@preserves_and_then _ kinds).
  - apply kinds_declare.
  - destruct initializer; [apply kinds_resolveExpr | apply preserves_skip].
  - apply kinds_define.
Qed.

Lemma kinds_visitReturnStmt keyword value : preserves kinds (visitReturnStmt keyword value).
Proof.
  intros r. unfold visitReturnStmt, and_then.
  destruct value as [v|]; [rewrite kinds_resolveExpr | unfold skip];
    destruct r as [s [] cc rep loc]; done.
Qed.

Lemma kinds_restore_class a r :
  preserves currentFunction a ->
  kinds ((a >>> set_currentClass (currentClass r)) r) = kinds r.
Proof. intros Ha. unfold and_then, kinds. simpl. by rewrite Ha. Qed.

Lemma kinds_restore_function a r :
  preserves currentClass a ->
  kinds ((a >>> set_currentFunction (currentFunction r)) r) = kinds r.
Proof. intros Ha. unfold and_then, kinds. simpl. by rewrite Ha. Qed.

Create HintDb kinds_db.
#[local] Hint Resolve kinds_declare kinds_define kinds_resolveExpr kinds_visitVariableExpr
  kinds_visitVarStmt kinds_visitReturnStmt : kinds_db.

Ltac kinds_leaf :=
  first [ assumption
        | by intros ?
        | apply preserves_kinds_function; solve [auto with kinds_db]
        | apply preserves_kinds_class; solve [auto with kinds_db] ].

Lemma resolveStmt_preserves_kinds s : preserves kinds (resolveStmt s).
Proof.
  induction s
    as [ statements IH | name super meths IH | expression | func IH
       | condition thenBranch IHthen | condition thenBranch elseBranch IHthen IHelse
       | expression | keyword value | name initializer | condition body IH
       | name params body IH ]
    using Stmt_nested_ind
    with (Q := fun func => forall type, preserves kinds (resolveFunction func type));
    cbn [resolveStmt resolveFunction].
  - split_steps (@preserves_and_then _ kinds); [done | | done].
    by apply preserves_for_each.
  - intros r. cbv beta zeta. apply kinds_restore_class.
    split_steps (@preserves_and_then _ currentFunction); try kinds_leaf.
    + destruct super as [super|]; [|kinds_leaf].
      destruct (String.eqb (lexeme name) (lexeme super)); [kinds_leaf|].
      split_steps (@preserves_and_then _ currentFunction); kinds_leaf.
    + apply preserves_for_each. eapply Forall_impl; [exact IH|].
      intros m Hm. apply preserves_kinds_function, Hm.
    + destruct super; kinds_leaf.
  - apply kinds_resolveExpr.
  - split_steps (@preserves_and_then _ kinds);
      [apply kinds_declare | apply kinds_define | apply IH].
  - split_steps (@preserves_and_then _ kinds);
      [apply kinds_resolveExpr | done | apply preserves_skip].
  - split_steps (@preserves_and_then _ kinds); [apply kinds_resolveExpr | done | done].
  - apply kinds_resolveExpr.
  - apply kinds_visitReturnStmt.
  - apply kinds_visitVarStmt.
  - split_steps (@preserves_and_then _ kinds); [apply kinds_resolveExpr | done].
  - intros type r. cbv beta zeta. apply kinds_restore_function.
    split_steps (@preserves_and_then _ currentClass); try kinds_leaf.
    + apply preserves_for_each, Forall_forall. intros param _.
      apply preserves_kinds_class.
      apply preserves_and_then; [apply kinds_declare | apply kinds_define].
    + apply preserves_for_each. eapply Forall_impl; [exact IH|].
      intros st Hst. apply preserves_kinds_class, Hst.
Qed.

Lemma resolveFunction_preserves_kinds func type : preserves kinds (resolveFunction func type).
Proof.
  destruct func as [name params body]. cbn [resolveFunction].
  intros r. cbv beta zeta. apply kinds_restore_function.
  split_steps (@preserves_and_then _ currentClass); try kinds_leaf.
  - apply preserves_for_each, Forall_forall. intros param _.
    apply preserves_kinds_class.
    apply preserves_and_then; [apply kinds_declare | apply kinds_define].
  - apply preserves_for_each, Forall_forall. intros st _.
    apply preserves_kinds_class, resolveStmt_preserves_kinds.
Qed.

(** X3.  Every statement, and so every program, leaves the current function
    kind and the current class kind as it found them, whatever it declares,
    reports or nests on the way (a self-inheriting class included). *)
Theorem statements_restore_the_kinds (statements : list Stmt) (s : Stmt) (r : Resolver) :
  currentFunction (resolveStmt s r) = currentFunction r
  /\ currentClass (resolveStmt s r) = currentClass r
  /\ currentFunction (resolve statements r) = currentFunction r
  /\ currentClass (resolve statements r) = currentClass r.
Proof.
  assert (Hall : preserves kinds (resolve statements)).
  { apply preserves_for_each, Forall_forall. intros st _.
    apply resolveStmt_preserves_kinds. }
  pose proof (resolveStmt_preserves_kinds s r) as Hs. injection Hs as Hf Hc.
  pose proof (Hall r) as Hr. injection Hr as Hf' Hc'. done.
Qed.

(** ** What a statement does never depends on the logs *)

Lemma log_oblivious_skip : log_oblivious skip.
Proof. intros s cf cc rep loc. unfold skip. simpl. by rewrite !app_nil_r. Qed.

Lemma log_oblivious_and_then a b :
  log_oblivious a -> log_oblivious b -> log_oblivious (a >>> b).
Proof.
  intros Ha Hb s cf cc rep loc. unfold and_then. cbv zeta.
  rewrite (Ha s cf cc rep loc). cbv zeta.
  destruct (a (mkResolver s cf cc [] [])) as [s1 cf1 cc1 A A'].
  cbn [scopes currentFunction currentClass reported locals].
  rewrite (Hb s1 cf1 cc1 (rep ++ A) (loc ++ A')), (Hb s1 cf1 cc1 A A'). cbv zeta.
  cbn [scopes currentFunction currentClass reported locals].
  by rewrite !app_assoc.
Qed.

Lemma log_oblivious_for_each {A} (f : A -> Resolver -> Resolver) xs :
  Forall (fun x => log_oblivious (f x)) xs -> log_oblivious (for_each f xs).
Proof.
  induction 1 as [|x xs Hx _ IH]; [apply log_oblivious_skip|].
  change (for_each f (x :: xs)) with (f x >>> for_each f xs).
  by apply log_oblivious_and_then.
Qed.

Lemma log_oblivious_appends step : appends_logs step -> log_oblivious step.
Proof.
  intros H s cf cc rep loc. cbv zeta. rewrite (H s cf cc rep loc).
  pose proof (H s cf cc [] []) as H0.
  destruct (step (mkResolver s cf cc [] [])) as [s1 cf1 cc1 A A'].
  simpl in H0. by injection H0 as -> -> ->.
Qed.

Lemma log_oblivious_scopes (f : list Scope -> list Scope) :
  log_oblivious (fun r => set_scopes (f (scopes r)) r).
Proof. intros s cf cc rep loc. simpl. by rewrite !app_nil_r. Qed.

Lemma log_oblivious_beginScope : log_oblivious beginScope.
Proof. apply (log_oblivious_scopes (fun s => s ++ [∅])). Qed.

Lemma log_oblivious_endScope : log_oblivious endScope.
Proof. apply (log_oblivious_scopes (fun s => removelast s)). Qed.

Lemma log_oblivious_assign_peek k v : log_oblivious (assign_peek k v).
Proof. apply (log_oblivious_scopes (fun s => alter (set_property k v) (length s - 1) s)). Qed.

Lemma log_oblivious_set_currentClass c : log_oblivious (set_currentClass c).
Proof. intros s cf cc rep loc. simpl. by rewrite !app_nil_r. Qed.

Lemma log_oblivious_set_currentFunction f : log_oblivious (set_currentFunction f).
Proof. intros s cf cc rep loc. simpl. by rewrite !app_nil_r. Qed.

Lemma log_oblivious_report msg ln : log_oblivious (report msg ln).
Proof. apply log_oblivious_appends, appends_logs_report. Qed.

Lemma log_oblivious_resolveExpr e : log_oblivious (resolveExpr e).
Proof. apply log_oblivious_appends, appends_logs_resolveExpr. Qed.

Lemma log_oblivious_visitVariableExpr name : log_oblivious (visitVariableExpr name).
Proof. apply (log_oblivious_resolveExpr (VariableExpr name)). Qed.

Lemma log_oblivious_define name : log_oblivious (define name).
Proof.
  intros s cf cc rep loc. unfold define. cbn [scopes].
  destruct (isEmpty s); [apply log_oblivious_skip | apply log_oblivious_assign_peek].
Qed.

Lemma log_oblivious_declare name : log_oblivious (declare name).
Proof.
  intros s cf cc rep loc. unfold declare. cbn [scopes].
  destruct (isEmpty s); [apply log_oblivious_skip|].
  destruct (peek s) as [scope|]; [|apply log_oblivious_skip].
  apply log_oblivious_and_then; [|apply log_oblivious_assign_peek].
  destruct (has_property (lexeme name) scope);
    [apply log_oblivious_report | apply log_oblivious_skip].
Qed.

Lemma log_oblivious_visitVarStmt name initializer :
  log_oblivious (visitVarStmt name initializer).
Proof.
  unfold visitVarStmt. split_steps log_oblivious_and_then.
  - apply log_oblivious_declare.
  - destruct initializer; [apply log_oblivious_resolveExpr | apply log_oblivious_skip].
  - apply log_oblivious_define.
Qed.

Lemma log_oblivious_visitReturnStmt keyword value :
  log_oblivious (visitReturnStmt keyword value).
Proof.
  unfold visitReturnStmt. apply log_oblivious_and_then.
  - intros s cf cc rep loc. cbn [currentFunction].
    destruct cf; [apply log_oblivious_report | apply log_oblivious_skip..].
  - destruct value as [v|]; [|apply log_oblivious_skip].
    apply log_oblivious_and_then; [|apply log_oblivious_resolveExpr].
    intros s cf cc rep loc. cbn [currentFunction].
    destruct cf;
      [apply log_oblivious_skip.. | apply log_oblivious_report | apply log_oblivious_skip].
Qed.

Create HintDb oblivious_db.
#[local] Hint Resolve log_oblivious_skip log_oblivious_beginScope log_oblivious_endScope
  log_oblivious_assign_peek log_oblivious_set_currentClass
  log_oblivious_set_currentFunction log_oblivious_report log_oblivious_resolveExpr
  log_oblivious_visitVariableExpr log_oblivious_define log_oblivious_declare
  log_oblivious_visitVarStmt log_oblivious_visitReturnStmt : oblivious_db.

Ltac with_saved_kind :=
  let s := fresh "s" in let cf := fresh "cf" in let cc := fresh "cc" in
  let rep := fresh "rep" in let loc := fresh "loc" in
  intros s cf cc rep loc; cbv beta zeta; cbn [currentClass currentFunction];
  lazymatch goal with
  | |- ?step _ = _ =>
      let H := fresh in
      assert (H : log_oblivious step); [clear s rep loc | exact (H s cf cc rep loc)]
  end.

Lemma resolveStmt_log_oblivious s : log_oblivious (resolveStmt s).
Proof.
  induction s
    as [ statements IH | name super meths IH | expression | func IH
       | condition thenBranch IHthen | condition thenBranch elseBranch IHthen IHelse
       | expression | keyword value | name initializer | condition body IH
       | name params body IH ]
    using Stmt_nested_ind
    with (Q := fun func => forall type, log_oblivious (resolveFunction func type));
    cbn [resolveStmt resolveFunction].
  - split_steps log_oblivious_and_then; auto with oblivious_db.
    by apply log_oblivious_for_each.
  - with_saved_kind.
    split_steps log_oblivious_and_then; auto with oblivious_db.
    + destruct super as [super|]; [|auto with oblivious_db].
      destruct (String.eqb (lexeme name) (lexeme super)); [auto with oblivious_db|].
      split_steps log_oblivious_and_then; auto with oblivious_db.
    + apply log_oblivious_for_each. eapply Forall_impl; [exact IH|].
      intros m Hm. apply Hm.
    + destruct super; auto with oblivious_db.
  - auto with oblivious_db.
  - split_steps log_oblivious_and_then; auto with oblivious_db.
  - split_steps log_oblivious_and_then; auto with oblivious_db.
  - split_steps log_oblivious_and_then; auto with oblivious_db.
  - auto with oblivious_db.
  - auto with oblivious_db.
  - auto with oblivious_db.
  - split_steps log_oblivious_and_then; auto with oblivious_db.
  - intros type. with_saved_kind.
    split_steps log_oblivious_and_then; auto with oblivious_db.
    + apply log_oblivious_for_each, Forall_forall. intros param _.
      apply log_oblivious_and_then; auto with oblivious_db.
    + by apply log_oblivious_for_each.
Qed.

Lemma resolve_log_oblivious statements : log_oblivious (resolve statements).
Proof.
  apply log_oblivious_for_each, Forall_forall. intros s _.
  apply resolveStmt_log_oblivious.
Qed.

Lemma resolveFunction_log_oblivious func type : log_oblivious (resolveFunction func type).
Proof.
  destruct func as [name params body]. cbn [resolveFunction].
  with_saved_kind.
  split_steps log_oblivious_and_then; auto with oblivious_db.
  - apply log_oblivious_for_each, Forall_forall. intros param _.
    apply log_oblivious_and_then; auto with oblivious_db.
  - apply resolve_log_oblivious.
Qed.

(** A step that does not depend on the logs keeps the depth entries
    recorded before it. *)
Lemma log_oblivious_locals step r :
  log_oblivious step -> exists more, locals (step r) = locals r ++ more.
Proof. intros H. destruct r as [s cf cc rep loc]. rewrite (H s cf cc rep loc). by eexists. Qed.

(** X4.  A program's effect does not depend on what was reported or recorded
    before it: run from any state, it leaves the scopes and kinds it would
    leave from the same state with empty logs, keeps the earlier entries in
    place and appends exactly what it would emit there.  Diagnostics and
    depth entries are never dropped, reordered or rewritten. *)
Theorem resolution_keeps_and_extends_the_logs (statements : list Stmt) (r : Resolver) :
  resolve statements r
  = mkResolver (scopes (resolve statements (fresh_logs r)))
               (currentFunction (resolve statements (fresh_logs r)))
               (currentClass (resolve statements (fresh_logs r)))
               (reported r ++ reported (resolve statements (fresh_logs r)))
               (locals r ++ locals (resolve statements (fresh_logs r))).
Proof. destruct r as [s cf cc rep loc]. apply resolve_log_oblivious. Qed.

Lemma for_each_app {A} (f : A -> Resolver -> Resolver) xs ys r :
  for_each f (xs ++ ys) r = for_each f ys (for_each f xs r).
Proof. revert r. induction xs as [|x xs IH]; intros r; [done | apply IH]. Qed.

(** X5.  Resolving a program is resolving its first part and then, from the
    state that leaves, its second part; so a program fed to the same
    Resolver piece by piece gets the diagnostics and depths of the whole. *)
Theorem resolve_in_two_parts (first second : list Stmt) (r : Resolver) :
  resolve (first ++ second) r = resolve second (resolve first r)
  /\ reported (resolve (first ++ second) r)
     = reported (resolve first r)
       ++ reported (resolve second (fresh_logs (resolve first r))).
Proof.
  split; [apply for_each_app|].
  unfold resolve at 1. rewrite for_each_app.
  fold (resolve first r). fold (resolve second (resolve first r)).
  destruct (resolve first r) as [s cf cc rep loc].
  by rewrite (resolve_log_oblivious second s cf cc rep loc).
Qed.

(** ** Only the innermost scope is ever written *)

Lemma removelast_alter_last {A} (f : A -> A) (l : list A) :
  removelast (alter f (length l - 1) l) = removelast l.
Proof.
  destruct l as [|x l] using rev_ind; [done|].
  rewrite length_app. simpl.
  replace (length l + 1 - 1) with (length l + 0) by lia.
  rewrite alter_app_r. simpl. by rewrite !removelast_last.
Qed.

Lemma outer_scopes_alter_last f r r' :
  scopes r' = alter f (length (scopes r) - 1) (scopes r) ->
  outer_scopes r' = outer_scopes r.
Proof.
  intros H. unfold outer_scopes. by rewrite H, removelast_alter_last, length_alter.
Qed.

Lemma outer_scopes_same r r' : scopes r' = scopes r -> outer_scopes r' = outer_scopes r.
Proof. intros H. unfold outer_scopes. by rewrite H. Qed.

Lemma preserves_scopes_outer a : preserves scopes a -> preserves outer_scopes a.
Proof. intros Ha r. apply outer_scopes_same, Ha. Qed.

Lemma outer_declare name : preserves outer_scopes (declare name).
Proof. intros r. eapply outer_scopes_alter_last, scopes_declare. Qed.

Lemma outer_define name : preserves outer_scopes (define name).
Proof. intros r. eapply outer_scopes_alter_last, scopes_define. Qed.

Lemma outer_visitVarStmt name initializer :
  preserves outer_scopes (visitVarStmt name initializer).
Proof. intros r. eapply outer_scopes_alter_last, visitVarStmt_scopes. Qed.

Lemma scopes_resolveExpr e : preserves scopes (resolveExpr e).
Proof. intros r. by rewrite resolveExpr_logs. Qed.

Lemma scopes_visitReturnStmt keyword value : preserves scopes (visitReturnStmt keyword value).
Proof.
  intros r. unfold visitReturnStmt, and_then.
  destruct value as [v|]; [rewrite scopes_resolveExpr | unfold skip];
    destruct r as [s [] cc rep loc]; done.
Qed.

Lemma scoped_restores a r :
  preserves outer_scopes a -> scopes (endScope (a (beginScope r))) = scopes r.
Proof.
  intros Ha. cbn [endScope set_scopes scopes].
  pose proof (Ha (beginScope r)) as H. unfold outer_scopes in H.
  injection H as -> _. cbn [beginScope set_scopes scopes]. apply removelast_last.
Qed.

Lemma removelast_bound_scope k v r :
  removelast (scopes (assign_peek k v (beginScope r))) = scopes r.
Proof.
  cbn [assign_peek beginScope set_scopes scopes].
  rewrite removelast_alter_last. apply removelast_last.
Qed.

(** The scope stack a class declaration leaves, given that its methods leave
    the stack as they find it. *)
Lemma visitClassStmt_scopes name super meths r :
  Forall (fun m => forall type, preserves scopes (resolveFunction m type)) meths ->
  scopes (resolveStmt (ClassStmt name super meths) r)
  = match super with
    | Some sup =>
        if String.eqb (lexeme name) (lexeme sup)
        then removelast (scopes (define name (declare name r)))
        else scopes (define name (declare name r))
    | None => scopes (define name (declare name r))
    end.
Proof.
  intros Hmeths.
  assert (HM : preserves scopes
                 (for_each (fun method => resolveFunction method (method_type method)) meths)).
  { apply preserves_for_each. eapply Forall_impl; [exact Hmeths|]. intros m Hm. apply Hm. }
  assert (Hname : scopes (define name (declare name (set_currentClass ClassType.Class r)))
                  = scopes (define name (declare name r))).
  { by rewrite !scopes_define, !scopes_declare. }
  cbn [resolveStmt]. unfold and_then.
  destruct super as [sup|]; [destruct (String.eqb (lexeme name) (lexeme sup))|].
  - cbn [set_currentClass scopes endScope set_scopes].
    rewrite HM, removelast_bound_scope. cbn [report scopes]. by rewrite Hname.
  - cbn [set_currentClass scopes endScope set_scopes].
    rewrite HM, !removelast_bound_scope.
    change (visitVariableExpr sup) with (resolveExpr (VariableExpr sup)).
    rewrite scopes_resolveExpr. cbn [set_currentClass scopes]. by rewrite Hname.
  - unfold skip. cbn [set_currentClass scopes endScope set_scopes].
    by rewrite HM, removelast_bound_scope, Hname.
Qed.

Lemma resolveFunction_scopes name params body type :
  preserves outer_scopes (for_each resolveStmt body) ->
  preserves scopes (resolveFunction (Function name params body) type).
Proof.
  intros Hbody r.
  cbn [resolveFunction]. cbv beta zeta. unfold and_then.
  cbn [set_currentFunction scopes].
  change (scopes (endScope (for_each resolveStmt body
            (for_each (fun param => declare param >>> define param) params
               (beginScope (set_currentFunction type r)))))
          = scopes (set_currentFunction type r)).
  apply (scoped_restores
           (for_each (fun param => declare param >>> define param) params
            >>> for_each resolveStmt body)).
  apply preserves_and_then; [|done].
  apply preserves_for_each, Forall_forall. intros param _.
  apply preserves_and_then; [apply outer_declare | apply outer_define].
Qed.

Lemma resolveStmt_outer_scopes s :
  self_inheritance_free s = true -> preserves outer_scopes (resolveStmt s).
Proof.
  induction s
    as [ statements IH | name super meths IH | expression | func IH
       | condition thenBranch IHthen | condition thenBranch elseBranch IHthen IHelse
       | expression | keyword value | name initializer | condition body IH
       | name params body IH ]
    using Stmt_nested_ind
    with (Q := fun func => function_self_inheritance_free func = true ->
                           forall type, preserves scopes (resolveFunction func type));
    cbn [self_inheritance_free function_self_inheritance_free].
  - (* block *)
    intros Hfree. apply preserves_scopes_outer. intros r. cbn [resolveStmt].
    apply (scoped_restores (for_each resolveStmt statements)).
    apply preserves_for_each. rewrite forallb_forall in Hfree. rewrite Forall_forall in *.
    intros s Hs. apply IH; [done|]. apply Hfree. by apply list_elem_of_In.
  - (* class *)
    intros [Hsuper Hmeths]%andb_true_iff r.
    rewrite forallb_forall in Hmeths.
    apply eq_trans with (outer_scopes (define name (declare name r)));
      [|by rewrite outer_define, outer_declare].
    apply outer_scopes_same.
    rewrite (visitClassStmt_scopes name super meths r).
    + destruct super as [sup|]; [|done].
      apply negb_true_iff in Hsuper. by rewrite Hsuper.
    + rewrite Forall_forall in *. intros m Hm. apply IH; [done|].
      apply Hmeths. by apply list_elem_of_In.
  - intros _. cbn [resolveStmt]. apply preserves_scopes_outer, scopes_resolveExpr.
  - (* function declaration *)
    intros Hfree. cbn [resolveStmt]. split_steps (@preserves_and_then _ outer_scopes).
    + apply outer_declare.
    + apply outer_define.
    + by apply preserves_scopes_outer, IH.
  - intros Hfree. rewrite andb_true_r in Hfree. cbn [resolveStmt].
    split_steps (@preserves_and_then _ outer_scopes).
    + apply preserves_scopes_outer, scopes_resolveExpr.
    + by apply IHthen.
    + apply preserves_skip.
  - intros [H1 H2]%andb_true_iff. cbn [resolveStmt].
    split_steps (@preserves_and_then _ outer_scopes).
    + apply preserves_scopes_outer, scopes_resolveExpr.
    + by apply IHthen.
    + by apply IHelse.
  - intros _. cbn [resolveStmt]. apply preserves_scopes_outer, scopes_resolveExpr.
  - intros _. cbn [resolveStmt]. apply preserves_scopes_outer, scopes_visitReturnStmt.
  - intros _. cbn [resolveStmt]. apply outer_visitVarStmt.
  - intros Hfree. cbn [resolveStmt]. split_steps (@preserves_and_then _ outer_scopes).
    + apply preserves_scopes_outer, scopes_resolveExpr.
    + by apply IH.
  - (* function body *)
    intros Hfree type. apply resolveFunction_scopes.
    apply preserves_for_each. rewrite forallb_forall in Hfree. rewrite Forall_forall in *.
    intros s Hs. apply IH; [done|]. apply Hfree. by apply list_elem_of_In.
Qed.

Lemma resolveFunction_restores_scopes func type :
  function_self_inheritance_free func = true ->
  preserves scopes (resolveFunction func type).
Proof.
  destruct func as [name params body]. cbn [function_self_inheritance_free].
  intros Hfree. apply resolveFunction_scopes, preserves_for_each.
  rewrite forallb_forall in Hfree. apply Forall_forall. intros s Hs.
  apply resolveStmt_outer_scopes, Hfree. by apply list_elem_of_In.
Qed.

(** X1.  A statement that contains no self-inheriting class writes to the
    innermost scope only: every scope below it is left exactly as it was, and
    the stack has the same height afterwards. *)
Theorem statements_write_only_the_innermost_scope (s : Stmt) (r : Resolver) :
  self_inheritance_free s = true ->
  removelast (scopes (resolveStmt s r)) = removelast (scopes r)
  /\ length (scopes (resolveStmt s r)) = length (scopes r).
Proof.
  intros Hfree. pose proof (resolveStmt_outer_scopes s Hfree r) as H.
  unfold outer_scopes in H. by injection H.
Qed.

Lemma statements_write_only_the_innermost_scope_witness :
  removelast (scopes (resolveStmt (BlockStmt nested_program) three_scopes))
  = removelast (scopes three_scopes)
  /\ length (scopes (resolveStmt (BlockStmt nested_program) three_scopes)) = 3.
Proof.
  apply (statements_write_only_the_innermost_scope (BlockStmt nested_program) three_scopes).
  reflexivity.
Defined.

(** X2.  Constructs that open a scope close it again.  With no self-inheriting
    class inside, a block and a function body (under any function kind) leave
    the scope stack exactly as they found it, and a function or class
    declaration leaves only its own name behind, defined in the scope it was
    declared in. *)
Theorem scoped_constructs_restore_the_stack (r : Resolver) :
  (forall statements,
      self_inheritance_free (BlockStmt statements) = true ->
      scopes (resolveStmt (BlockStmt statements) r) = scopes r)
  /\ (forall func type,
         function_self_inheritance_free func = true ->
         scopes (resolveFunction func type r) = scopes r)
  /\ (forall func,
         function_self_inheritance_free func = true ->
         scopes (resolveStmt (FunctionDecl func) r)
         = scopes (define (function_name func) (declare (function_name func) r)))
  /\ (forall name super meths,
         self_inheritance_free (ClassStmt name super meths) = true ->
         scopes (resolveStmt (ClassStmt name super meths) r)
         = scopes (define name (declare name r))).
Proof.
  split; [|split; [|split]].
  - intros statements Hfree. cbn [resolveStmt].
    apply (scoped_restores (for_each resolveStmt statements)).
    apply preserves_for_each, Forall_forall. intros s Hs.
    apply resolveStmt_outer_scopes. cbn [self_inheritance_free] in Hfree.
    rewrite forallb_forall in Hfree. apply Hfree. by apply list_elem_of_In.
  - intros func type Hfree. by apply resolveFunction_restores_scopes.
  - intros func Hfree. cbn [resolveStmt]. unfold and_then.
    by rewrite resolveFunction_restores_scopes.
  - intros name super meths Hfree. cbn [self_inheritance_free] in Hfree.
    apply andb_true_iff in Hfree as [Hsuper Hmeths].
    rewrite forallb_forall in Hmeths.
    rewrite visitClassStmt_scopes.
    + destruct super as [sup|]; [|done].
      apply negb_true_iff in Hsuper. by rewrite Hsuper.
    + apply Forall_forall. intros m Hm type.
      apply resolveFunction_restores_scopes, Hmeths. by apply list_elem_of_In.
Qed.

Lemma scoped_constructs_restore_the_stack_witness :
  scopes (resolveStmt (BlockStmt nested_program) three_scopes) = scopes three_scopes.
Proof.
  apply (proj1 (scoped_constructs_restore_the_stack three_scopes) nested_program).
  reflexivity.
Defined.

(** X14.  A class that names itself as its superclass, whatever its (otherwise
    well-behaved) methods, leaves the scope stack without its innermost
    scope: the scope the class was declared in is popped along with the
    class's own. *)
Theorem self_inheriting_class_drops_the_innermost_scope
    (name sup : Token) (meths : list FunctionStmt) (r : Resolver) :
  lexeme name = lexeme sup ->
  forallb function_self_inheritance_free meths = true ->
  scopes (resolveStmt (ClassStmt name (Some sup) meths) r) = removelast (scopes r).
Proof.
  intros Hself Hmeths. rewrite forallb_forall in Hmeths.
  rewrite visitClassStmt_scopes.
  - rewrite Hself, String.eqb_refl, scopes_define, removelast_alter_last.
    by rewrite scopes_declare, removelast_alter_last.
  - apply Forall_forall. intros m Hm type.
    apply resolveFunction_restores_scopes, Hmeths. by apply list_elem_of_In.
Qed.

Lemma self_inheriting_class_drops_the_innermost_scope_witness :
  scopes (resolveStmt self_inheriting_class three_scopes)
  = [ {["a" := true]}; {["a" := true; "b" := true]} ].
Proof.
  apply (self_inheriting_class_drops_the_innermost_scope
           (tok "A" 1) (tok "A" 1) [] three_scopes); reflexivity.
Defined.

(** ** Parameters *)

Lemma has_property_set_property_mono k k' v (scope : Scope) :
  has_property k scope = true -> has_property k (set_property k' v scope) = true.
Proof.
  unfold has_property, set_property. intros [H|H]%orb_true_iff; apply orb_true_iff;
    [|by right].
  left. apply bool_decide_eq_true in H. apply bool_decide_eq_true.
  destruct (String.eqb k' "__proto__"); [done|].
  destruct (decide (k' = k)) as [->|Hne];
    [rewrite lookup_insert_eq; by eexists | by rewrite lookup_insert_ne].
Qed.

Lemma has_property_set_property_ne k k' v (scope : Scope) :
  k' <> k -> has_property k (set_property k' v scope) = has_property k scope.
Proof. intros Hne. unfold has_property. by rewrite set_property_lookup_ne. Qed.

Lemma declare_define_step param r base scope :
  scopes r = base ++ [scope] ->
  (declare param >>> define param) r
  = mkResolver (base ++ [declared_and_defined scope param])
               (currentFunction r) (currentClass r)
               (reported r ++
                  if has_property (lexeme param) scope
                  then [mkResolvingError "Already variable with this name in scope"
                                         (line param)]
                  else [])
               (locals r).
Proof.
  intros Hscopes. unfold and_then.
  assert (Hlast : last (scopes r) = Some scope) by (rewrite Hscopes; apply last_snoc).
  rewrite (declare_in_scope param r scope Hlast).
  unfold define. cbn [scopes]. rewrite Hscopes, length_app. simpl.
  replace (length base + 1 - 1) with (length base + 0) by lia.
  rewrite alter_app_r. simpl.
  assert (isEmpty (base ++ [set_property (lexeme param) false scope]) = false) as ->.
  { unfold isEmpty. apply bool_decide_eq_false. rewrite length_app. simpl. lia. }
  unfold assign_peek, set_scopes. cbn [scopes currentFunction currentClass reported locals].
  rewrite length_app. simpl.
  replace (length base + 1 - 1) with (length base + 0) by lia.
  by rewrite alter_app_r.
Qed.

Lemma declare_params_scopes params : forall r base scope,
  scopes r = base ++ [scope] ->
  scopes (declare_params params r) = base ++ [foldl declared_and_defined scope params]
  /\ locals (declare_params params r) = locals r
  /\ kinds (declare_params params r) = kinds r.
Proof.
  induction params as [|p params IH]; intros r base scope Hscopes; [done|].
  change (declare_params (p :: params) r)
    with (declare_params params ((declare p >>> define p) r)).
  rewrite (declare_define_step p r base scope Hscopes).
  set (r1 := mkResolver _ _ _ _ _).
  destruct (IH r1 base (declared_and_defined scope p) eq_refl) as (-> & -> & ->).
  done.
Qed.

Lemma foldl_declared_lookup_other params : forall (scope : Scope) k,
  (forall p, p ∈ params -> lexeme p <> k) ->
  foldl declared_and_defined scope params !! k = scope !! k.
Proof.
  induction params as [|p params IH]; intros scope k Hk; [done|].
  cbn [foldl]. rewrite IH by (intros q Hq; apply Hk; set_solver).
  unfold declared_and_defined. rewrite !set_property_lookup_ne; [done|..];
    apply Hk; set_solver.
Qed.

Lemma foldl_declared_lookup params : forall (scope : Scope) p,
  p ∈ params -> lexeme p <> "__proto__" ->
  foldl declared_and_defined scope params !! lexeme p = Some true.
Proof.
  induction params as [|q params IH] using rev_ind; intros scope p Hp Hname;
    [by apply elem_of_nil in Hp|].
  rewrite foldl_app. cbn [foldl]. unfold declared_and_defined at 1.
  destruct (decide (lexeme q = lexeme p)) as [Heq|Hne].
  - rewrite Heq. by apply set_property_lookup.
  - rewrite !set_property_lookup_ne by done.
    apply elem_of_app in Hp as [Hp|Hp]; [by apply IH|].
    apply list_elem_of_singleton in Hp. by subst.
Qed.

Lemma set_property_lookup_proto k v (scope : Scope) :
  set_property k v scope !! "__proto__" = scope !! "__proto__".
Proof.
  unfold set_property. destruct (String.eqb k "__proto__") eqn:E; [done|].
  apply String.eqb_neq in E. by rewrite lookup_insert_ne.
Qed.

Lemma foldl_declared_lookup_proto params : forall (scope : Scope),
  foldl declared_and_defined scope params !! "__proto__" = scope !! "__proto__".
Proof.
  induction params as [|p params IH]; intros scope; [done|].
  cbn [foldl]. rewrite IH. unfold declared_and_defined.
  by rewrite !set_property_lookup_proto.
Qed.

Lemma declare_params_distinct params : forall r base scope,
  scopes r = base ++ [scope] ->
  NoDup (lexeme <$> params) ->
  (forall p, p ∈ params -> has_property (lexeme p) scope = false) ->
  reported (declare_params params r) = reported r.
Proof.
  induction params as [|p params IH]; intros r base scope Hscopes Hdistinct Hfresh; [done|].
  change (declare_params (p :: params) r)
    with (declare_params params ((declare p >>> define p) r)).
  rewrite fmap_cons in Hdistinct. apply NoDup_cons in Hdistinct as [Hp Hdistinct].
  rewrite (IH _ base (declared_and_defined scope p)).
  - rewrite (declare_define_step p r base scope Hscopes). cbn [reported].
    rewrite Hfresh by set_solver. apply app_nil_r.
  - by rewrite (declare_define_step p r base scope Hscopes).
  - done.
  - intros q Hq. unfold declared_and_defined.
    assert (Hne : lexeme p <> lexeme q).
    { intros Heq. apply Hp. rewrite Heq. by apply list_elem_of_fmap_2. }
    rewrite !has_property_set_property_ne by done. apply Hfresh. set_solver.
Qed.

Lemma declare_params_keeps_reports params r :
  exists more, reported (declare_params params r) = reported r ++ more.
Proof.
  assert (H : log_oblivious (declare_params params)).
  { apply log_oblivious_for_each, Forall_forall. intros p _.
    apply log_oblivious_and_then; auto with oblivious_db. }
  destruct r as [s cf cc rep loc]. rewrite (H s cf cc rep loc). by eexists.
Qed.

Lemma declare_params_app xs ys r :
  declare_params (xs ++ ys) r = declare_params ys (declare_params xs r).
Proof. apply for_each_app. Qed.

Lemma foldl_declared_has_property params : forall (scope : Scope) k,
  has_property k scope = true ->
  has_property k (foldl declared_and_defined scope params) = true.
Proof.
  induction params as [|p params IH]; intros scope k Hk; [done|].
  cbn [foldl]. apply IH. unfold declared_and_defined.
  by do 2 apply has_property_set_property_mono.
Qed.

(** X11.  The parameter loop of [resolveFunction] ([declare_params], which
    runs between [beginScope] and the body).  Started in the function's new
    scope, it touches nothing below and leaves that scope holding exactly
    the parameter names other than [__proto__], each defined: a parameter
    named [__proto__] leaves no entry, since the assignment to that property
    of a scope is ignored.  Parameters with pairwise distinct names (none of
    them a name of [Object.prototype]) are declared without a diagnostic; and
    a parameter that repeats the name of an earlier one is reported at its
    own line. *)
Theorem parameters_fill_the_function_scope (params : list Token) (r : Resolver) :
  (forall name body type,
      resolveFunction (Function name params body) type r
      = (set_currentFunction type >>> beginScope >>> declare_params params
         >>> resolve body >>> endScope >>> set_currentFunction (currentFunction r)) r)
  /\
  exists scope,
    scopes (declare_params params (beginScope r)) = scopes r ++ [scope]
    /\ (forall p, p ∈ params -> lexeme p <> "__proto__" ->
                  scope !! lexeme p = Some true)
    /\ (forall k, (forall p, p ∈ params -> lexeme p <> k) -> scope !! k = None)
    /\ scope !! "__proto__" = None
    /\ (NoDup (lexeme <$> params) ->
        (forall p, p ∈ params -> inherited (lexeme p) = false) ->
        reported (declare_params params (beginScope r)) = reported r)
    /\ (forall front p middle q back,
           params = front ++ p :: middle ++ q :: back ->
           lexeme q = lexeme p ->
           mkResolvingError "Already variable with this name in scope" (line q)
           ∈ reported (declare_params params (beginScope r))).
Proof.
  split; [done|].
  exists (foldl declared_and_defined ∅ params).
  assert (Hbegin : scopes (beginScope r) = scopes r ++ [∅]) by done.
  split; [|split; [|split; [|split; [|split]]]].
  - by destruct (declare_params_scopes params (beginScope r) (scopes r) ∅ Hbegin) as [-> _].
  - intros p Hp Hname. by apply foldl_declared_lookup.
  - intros k Hk. by rewrite foldl_declared_lookup_other.
  - by rewrite foldl_declared_lookup_proto.
  - intros Hdistinct Hnames.
    rewrite (declare_params_distinct params (beginScope r) (scopes r) ∅ Hbegin Hdistinct).
    + done.
    + intros p Hp. rewrite has_property_empty. by apply Hnames.
  - intros front p middle q back -> Hsame.
    replace (front ++ p :: middle ++ q :: back)
      with ((front ++ p :: middle) ++ q :: back) by (by rewrite <- app_assoc).
    rewrite declare_params_app.
    destruct (declare_params_scopes (front ++ p :: middle) (beginScope r) (scopes r) ∅ Hbegin)
      as [Hscopes _].
    set (r1 := declare_params (front ++ p :: middle) (beginScope r)) in *.
    change (declare_params (q :: back) r1)
      with (declare_params back ((declare q >>> define q) r1)).
    destruct (declare_params_keeps_reports back ((declare q >>> define q) r1))
      as [more ->].
    rewrite (declare_define_step q r1 _ _ Hscopes). cbn [reported].
    assert (has_property (lexeme q)
              (foldl declared_and_defined ∅ (front ++ p :: middle)) = true) as ->.
    { rewrite foldl_app. cbn [foldl]. apply foldl_declared_has_property.
      rewrite Hsame. unfold declared_and_defined. apply has_property_set_property. }
    set_solver.
Qed.

Lemma parameters_fill_the_function_scope_witness :
  mkResolvingError "Already variable with this name in scope" 3
  ∈ reported (declare_params [tok "a" 1; tok "b" 2; tok "a" 3] (beginScope initial)).
Proof.
  destruct (parameters_fill_the_function_scope [tok "a" 1; tok "b" 2; tok "a" 3] initial)
    as (_ & scope & _ & _ & _ & _ & _ & Hrepeated).
  apply (Hrepeated [] (tok "a" 1) [tok "b" 2] (tok "a" 3) []); reflexivity.
Defined.

(** ** [this] and [super] inside a method *)

(** The depth recorded for a name is the number of scopes above the
    innermost scope that holds it. *)
Lemma resolveLocal_scopes_above expr name r below scope above :
  scopes r = below ++ scope :: above ->
  has_property (lexeme name) scope = true ->
  Forall (fun sc => has_property (lexeme name) sc = false) above ->
  resolveLocal expr name r = interpreter_resolve expr (length above) r.
Proof.
  intros Hscopes Hin Habove. unfold resolveLocal.
  rewrite (resolveLocal_loop_found _ _ _ _ (length below) scope).
  - f_equal. rewrite Hscopes, length_app. simpl. lia.
  - rewrite Hscopes, length_app. simpl. lia.
  - rewrite Hscopes. by apply list_lookup_middle.
  - done.
  - intros j sc Hlt _ Hj. rewrite Hscopes in Hj.
    rewrite lookup_app_r in Hj by lia.
    destruct (j - length below) as [|n] eqn:E; [lia|]. simpl in Hj.
    rewrite Forall_forall in Habove. apply Habove. by eapply list_elem_of_lookup_2.
Qed.

Lemma method_body_depths mname params this_kw super_kw rest type r base :
  scopes r = base ++ [set_property "super" true ∅; set_property "this" true ∅] ->
  currentClass r = ClassType.SubClass ->
  lexeme this_kw = "this" ->
  lexeme super_kw = "super" ->
  (forall p, p ∈ params -> lexeme p <> "this" /\ lexeme p <> "super") ->
  exists more,
    locals (resolveFunction
              (Function mname params
                 (ExpressionStmt (ThisExpr this_kw) :: ExpressionStmt (SuperExpr super_kw)
                  :: rest))
              type r)
    = locals r ++ [(ThisExpr this_kw, 1); (SuperExpr super_kw, 2)] ++ more.
Proof.
  intros Hscopes Hclass Hthis Hsuper Hparams.
  change (resolveFunction _ type r)
    with ((set_currentFunction type >>> beginScope >>> declare_params params
           >>> resolveExpr (ThisExpr this_kw) >>> resolveExpr (SuperExpr super_kw)
           >>> resolve rest
           >>> endScope >>> set_currentFunction (currentFunction r)) r).
  unfold and_then.
  cbn [set_currentFunction endScope set_scopes locals].
  destruct (declare_params_scopes params (beginScope (set_currentFunction type r))
              (scopes r) ∅ eq_refl) as (Hs & Hl & Hk).
  set (x := declare_params params (beginScope (set_currentFunction type r))) in *.
  set (psc := foldl declared_and_defined ∅ params) in *.
  assert (Hcc : currentClass x = ClassType.SubClass).
  { injection Hk as _ ->. done. }
  assert (Hpsc : forall k, k = "this" \/ k = "super" -> has_property k psc = false).
  { intros k Hk'. unfold has_property, psc.
    rewrite foldl_declared_lookup_other.
    - rewrite lookup_empty. by destruct Hk' as [-> | ->].
    - intros p Hp. destruct (Hparams p Hp). by destruct Hk' as [-> | ->]. }
  destruct (log_oblivious_locals (resolve rest)
              (resolveExpr (SuperExpr super_kw) (resolveExpr (ThisExpr this_kw) x))
              (resolve_log_oblivious rest)) as [more ->].
  exists more. rewrite (app_assoc (locals r)). f_equal. cbn [resolveExpr].
  (* this *)
  assert (Hx1 : visitThisExpr this_kw x = interpreter_resolve (ThisExpr this_kw) 1 x).
  { unfold visitThisExpr. rewrite Hcc.
    apply (resolveLocal_scopes_above _ _ _ (base ++ [set_property "super" true ∅])
             (set_property "this" true ∅) [psc]).
    - rewrite Hs, Hscopes. by rewrite <- !app_assoc.
    - rewrite Hthis. apply has_property_set_property.
    - rewrite Hthis. apply Forall_cons. split; [apply Hpsc; by left | constructor]. }
  rewrite Hx1.
  (* super *)
  unfold visitSuperExpr, and_then. cbn [interpreter_resolve currentClass]. rewrite Hcc.
  rewrite (resolveLocal_scopes_above _ _ _ base (set_property "super" true ∅)
             [set_property "this" true ∅; psc]).
  - cbn [interpreter_resolve locals]. rewrite Hl. cbn [beginScope set_scopes locals
      set_currentFunction]. by rewrite <- app_assoc.
  - cbn [interpreter_resolve scopes]. rewrite Hs, Hscopes. by rewrite <- !app_assoc.
  - rewrite Hsuper. apply has_property_set_property.
  - rewrite Hsuper. apply Forall_cons. split.
    + unfold has_property. by rewrite set_property_lookup_ne.
    + apply Forall_cons. split; [apply Hpsc; by right | constructor].
Qed.

Lemma scopes_bound_scope k v r :
  scopes (assign_peek k v (beginScope r)) = scopes r ++ [set_property k v ∅].
Proof.
  cbn [assign_peek beginScope set_scopes scopes]. rewrite length_app. simpl.
  replace (length (scopes r) + 1 - 1) with (length (scopes r) + 0) by lia.
  by rewrite alter_app_r.
Qed.

Lemma locals_set_currentClass c r : locals (set_currentClass c r) = locals r.
Proof. reflexivity. Qed.

Lemma locals_endScope r : locals (endScope r) = locals r.
Proof. reflexivity. Qed.

Lemma currentClass_assign_peek k v r : currentClass (assign_peek k v r) = currentClass r.
Proof. reflexivity. Qed.

Lemma currentClass_beginScope r : currentClass (beginScope r) = currentClass r.
Proof. reflexivity. Qed.

Lemma for_each_singleton {A} (f : A -> Resolver -> Resolver) x r :
  for_each f [x] r = f x r.
Proof. reflexivity. Qed.

Lemma visitClassStmt_subclass name sup meths r :
  String.eqb (lexeme name) (lexeme sup) = false ->
  resolveStmt (ClassStmt name (Some sup) meths) r
  = let named := define name (declare name (set_currentClass ClassType.Class r)) in
    let resolved := visitVariableExpr sup (set_currentClass ClassType.SubClass named) in
    let with_super := assign_peek "super" true (beginScope resolved) in
    let with_this := assign_peek "this" true (beginScope with_super) in
    let after :=
      for_each (fun method => resolveFunction method (method_type method)) meths with_this in
    set_currentClass (currentClass r) (endScope (endScope after)).
Proof. intros H. cbn [resolveStmt]. cbv beta zeta. unfold and_then. by rewrite H. Qed.

Lemma methods_restore_scopes_and_class (meths : list FunctionStmt) r :
  Forall (fun m => function_self_inheritance_free m = true) meths ->
  scopes (for_each (fun method => resolveFunction method (method_type method)) meths r)
  = scopes r
  /\ currentClass (for_each (fun method => resolveFunction method (method_type method)) meths r)
     = currentClass r.
Proof.
  intros Hfree. split.
  - apply (preserves_for_each scopes). eapply Forall_impl; [exact Hfree|].
    intros m Hm. by apply resolveFunction_restores_scopes.
  - apply (preserves_for_each currentClass). apply Forall_forall. intros m _.
    apply preserves_kinds_class, resolveFunction_preserves_kinds.
Qed.

Lemma locals_visitClassStmt_subclass name sup meths r :
  String.eqb (lexeme name) (lexeme sup) = false ->
  locals (resolveStmt (ClassStmt name (Some sup) meths) r)
  = locals (for_each (fun method => resolveFunction method (method_type method)) meths
              (assign_peek "this" true
                 (beginScope
                    (assign_peek "super" true
                       (beginScope
                          (visitVariableExpr sup
                             (set_currentClass ClassType.SubClass
                                (define name
                                   (declare name (set_currentClass ClassType.Class r)))))))))).
Proof.
  intros H. rewrite (visitClassStmt_subclass name sup meths r H). cbv zeta.
  by rewrite locals_set_currentClass, !locals_endScope.
Qed.

(** X12.  In a class with a superclass (one that is not the class itself),
    take a method whose body begins with a [this] expression statement
    followed by a [super] expression statement, and let no method declared
    before it in the class contain a self-inheriting class.  Then what the
    class records up to that method is what the class would record with the
    earlier methods alone, and the next two entries are [this] at depth 1
    and [super] at depth 2: the method's own scope shadows neither (its
    parameters are not called [this] or [super]), the scope binding [this]
    lies directly around it and the scope binding [super] around that. *)
Theorem this_and_super_depths_in_a_method
    (name sup mname this_kw super_kw : Token) (params : list Token)
    (earlier later : list FunctionStmt) (rest : list Stmt) (r : Resolver) :
  lexeme name <> lexeme sup ->
  Forall (fun m => function_self_inheritance_free m = true) earlier ->
  lexeme this_kw = "this" ->
  lexeme super_kw = "super" ->
  (forall p, p ∈ params -> lexeme p <> "this" /\ lexeme p <> "super") ->
  exists after,
    locals (resolveStmt
              (ClassStmt name (Some sup)
                 (earlier
                  ++ Function mname params
                       (ExpressionStmt (ThisExpr this_kw)
                        :: ExpressionStmt (SuperExpr super_kw) :: rest)
                  :: later))
              r)
    = locals (resolveStmt (ClassStmt name (Some sup) earlier) r)
      ++ [(ThisExpr this_kw, 1); (SuperExpr super_kw, 2)] ++ after.
Proof.
  intros Hdistinct Hearlier Hthis Hsuper Hparams.
  apply String.eqb_neq in Hdistinct.
  rewrite !(locals_visitClassStmt_subclass name sup _ r Hdistinct).
  set (resolved := visitVariableExpr sup
                     (set_currentClass ClassType.SubClass
                        (define name (declare name (set_currentClass ClassType.Class r))))).
  set (with_this := assign_peek "this" true
                      (beginScope (assign_peek "super" true (beginScope resolved)))).
  rewrite for_each_app.
  destruct (methods_restore_scopes_and_class earlier with_this Hearlier) as [Hs Hc].
  set (entered := for_each _ earlier with_this) in *.
  change (for_each ?f (?m :: later) entered) with (for_each f later (f m entered)).
  destruct (log_oblivious_locals
              (for_each (fun method => resolveFunction method (method_type method)) later)
              (resolveFunction
                 (Function mname params
                    (ExpressionStmt (ThisExpr this_kw)
                     :: ExpressionStmt (SuperExpr super_kw) :: rest))
                 (method_type
                    (Function mname params
                       (ExpressionStmt (ThisExpr this_kw)
                        :: ExpressionStmt (SuperExpr super_kw) :: rest)))
                 entered))
    as [more2 ->].
  { apply log_oblivious_for_each, Forall_forall. intros m _.
    apply resolveFunction_log_oblivious. }
  destruct (method_body_depths mname params this_kw super_kw rest
              (method_type
                 (Function mname params
                    (ExpressionStmt (ThisExpr this_kw)
                     :: ExpressionStmt (SuperExpr super_kw) :: rest)))
              entered (scopes resolved))
    as [more ->]; try done.
  - rewrite Hs. unfold with_this. by rewrite !scopes_bound_scope, <- app_assoc.
  - rewrite Hc. unfold with_this.
    rewrite currentClass_assign_peek, currentClass_beginScope,
      currentClass_assign_peek, currentClass_beginScope.
    unfold resolved.
    rewrite (preserves_kinds_class _ (kinds_visitVariableExpr sup) _). reflexivity.
  - exists (more ++ more2). by rewrite <- !app_assoc.
Qed.

Lemma this_and_super_depths_in_a_method_witness :
  exists after,
    locals (resolveStmt
              (ClassStmt (tok "B" 1) (Some (tok "A" 1))
                 ([Function (tok "k" 2) [] [ExpressionStmt (ThisExpr (tok "this" 2))]]
                  ++ Function (tok "m" 3) [tok "x" 3]
                       (ExpressionStmt (ThisExpr (tok "this" 4))
                        :: ExpressionStmt (SuperExpr (tok "super" 5))
                        :: [PrintStmt (VariableExpr (tok "x" 6))])
                  :: []))
              three_scopes)
    = locals (resolveStmt
                (ClassStmt (tok "B" 1) (Some (tok "A" 1))
                   [Function (tok "k" 2) [] [ExpressionStmt (ThisExpr (tok "this" 2))]])
                three_scopes)
      ++ [(ThisExpr (tok "this" 4), 1); (SuperExpr (tok "super" 5), 2)] ++ after.
Proof.
  apply (this_and_super_depths_in_a_method (tok "B" 1) (tok "A" 1) (tok "m" 3)
           (tok "this" 4) (tok "super" 5) [tok "x" 3]
           [Function (tok "k" 2) [] [ExpressionStmt (ThisExpr (tok "this" 2))]] []
           [PrintStmt (VariableExpr (tok "x" 6))] three_scopes).
  - discriminate.
  - apply Forall_cons. split; [reflexivity | apply Forall_nil_2].
  - reflexivity.
  - reflexivity.
  - intros p Hp. apply list_elem_of_singleton in Hp as ->. split; discriminate.
Defined.

(** ** A function can name itself *)





(** * Further properties of LoxClass *)

Section FindMethodResults.
Context {LoxFunction : Type}.
Variable prototype_property : string -> LoxFunction.
Implicit Types (c s : LoxClass LoxFunction) (name : string).

Lemma findMethod_first_definition name : forall c f,
  inherited name = false ->
  findMethod prototype_property name c = Some f ->
  exists i ci,
    superclass_chain c !! i = Some ci
    /\ methods ci !! name = Some f
    /\ (forall j cj, j < i -> superclass_chain c !! j = Some cj ->
                     methods cj !! name = None).
Proof.
  induction c as [n own | n s own IH] using LoxClass_superclass_ind;
    intros f Hname; simpl; rewrite Hname.
  - destruct (own !! name) as [g|] eqn:E; [|done].
    intros [= <-]. exists 0, (mkLoxClass n None own).
    split; [done | split; [done | intros; lia]].
  - destruct (own !! name) as [g|] eqn:E.
    + intros [= <-]. exists 0, (mkLoxClass n (Some s) own).
      split; [done | split; [done | intros; lia]].
    + intros (i & ci & Hi & Hf & Hbefore)%IH; [|done]. exists (S i), ci.
      split; [done | split; [done|]].
      intros [|j] cj Hj Hcj; simpl in Hcj.
      * by injection Hcj as <-.
      * apply (Hbefore j); [lia | done].
Qed.

Lemma findMethod_finds_inherited name : forall c ci,
  ci ∈ superclass_chain c ->
  is_Some (methods ci !! name) ->
  is_Some (findMethod prototype_property name c).
Proof.
  induction c as [n own | n s own IH] using LoxClass_superclass_ind;
    intros ci Hci Hdef; simpl in Hci |- *.
  - apply list_elem_of_singleton in Hci as ->. simpl in Hdef.
    destruct (own !! name); [by eexists | by destruct Hdef].
  - destruct (own !! name) as [g|] eqn:E; [by eexists|].
    destruct (inherited name); [by eexists|].
    apply elem_of_cons in Hci as [-> | Hci].
    + simpl in Hdef. rewrite E in Hdef. by destruct Hdef.
    + by apply (IH ci).
Qed.

Lemma findMethod_none_not_inherited name c :
  findMethod prototype_property name c = None -> inherited name = false.
Proof.
  destruct (inherited name) eqn:Hname; [|done].
  by rewrite (findMethod_prototype_name _ _ _ Hname).
Qed.

(** X15.  What [findMethod] returns.  For a name that [Object.prototype]
    does not define, a returned method is the one defined, under that name,
    by the first class of the superclass chain (the class itself first) that
    defines the name at all: never a method that a nearer class overrides,
    nor one defined under another name.  For a name that [Object.prototype]
    defines, the result is the class's own method of that name if it has
    one, and the prototype's property otherwise; the superclass is not
    consulted. *)
Theorem findMethod_returns_the_nearest_definition name c (f : LoxFunction) :
  findMethod prototype_property name c = Some f ->
  (inherited name = false ->
   exists i ci,
     superclass_chain c !! i = Some ci
     /\ methods ci !! name = Some f
     /\ (forall j cj, j < i -> superclass_chain c !! j = Some cj ->
                      methods cj !! name = None))
  /\ (inherited name = true ->
      f = default (prototype_property name) (methods c !! name)).
Proof.
  intros Hf. split; intros Hname.
  - by apply findMethod_first_definition.
  - rewrite (findMethod_prototype_name _ _ _ Hname) in Hf. by injection Hf as <-.
Qed.

(** X16.  A definition anywhere in the superclass chain keeps [findMethod]
    from answering [null]: if any class of the chain defines the name,
    [findMethod] on the class returns a value; it answers [null] only if no
    class of the chain defines the name, and only for a name that
    [Object.prototype] does not define. *)
Theorem inherited_methods_are_found name c :
  (forall ci, ci ∈ superclass_chain c -> is_Some (methods ci !! name) ->
              is_Some (findMethod prototype_property name c))
  /\ (findMethod prototype_property name c = None ->
      inherited name = false
      /\ forall ci, ci ∈ superclass_chain c -> methods ci !! name = None).
Proof.
  split; [apply findMethod_finds_inherited|].
  intros Hnone. split; [by apply (findMethod_none_not_inherited name c)|].
  intros ci Hci. destruct (methods ci !! name) as [f|] eqn:E; [|done].
  destruct (findMethod_finds_inherited name c ci Hci) as [g Hg]; [by eexists|].
  congruence.
Qed.
End FindMethodResults.

Lemma findMethod_returns_the_nearest_definition_witness :
  (exists i ci,
      superclass_chain class_B !! i = Some ci
      /\ methods ci !! "init" = Some (Declared (Function (tok "init" 2) [] []))
      /\ (forall j cj, j < i -> superclass_chain class_B !! j = Some cj ->
                       methods cj !! "init" = None))
  /\ Native "toString" = default (Native "toString") (methods class_U !! "toString").
Proof.
  split.
  - apply (proj1 (findMethod_returns_the_nearest_definition Native "init" class_B
                    (Declared (Function (tok "init" 2) [] [])) eq_refl)).
    reflexivity.
  - apply (proj2 (findMethod_returns_the_nearest_definition Native "toString" class_U
                    (Native "toString") eq_refl)).
    reflexivity.
Defined.

Lemma inherited_methods_are_found_witness :
  is_Some (findMethod Native "init" class_B)
  /\ inherited "missing" = false.
Proof.
  split.
  - apply (proj1 (inherited_methods_are_found Native "init" class_B) class_A).
    + simpl. apply elem_of_cons. right. apply elem_of_cons. by left.
    + vm_compute. by eexists.
  - apply (proj2 (inherited_methods_are_found Native "missing" class_B)).
    vm_compute. reflexivity.
Defined.
